(** * pnpjs: Timeline observers and the Graph batch queue

    A shallow embedding of
      - packages/core/timeline/timeline.ts  (Timeline, addObserver),
      - packages/graph/batch.ts             (createBatch, makeUrlRelative,
                                             formatRequests, parseResponse),
      - packages/graph/invitations/index.ts (the [invitations] getter),
    and the properties of these functions.

    JavaScript objects that are shared and mutated in place (observer
    registries) live in an explicit heap and are referred to by location;
    code that may throw returns a [Completion]; asynchronous code is run by
    an explicit job queue. *)

From Stdlib Require Import ZArith Decimal DecimalString DecimalNat Ascii.
From stdpp Require Import gmap strings list fin_maps.

(** ** JavaScript values and completions *)

Module Js.

Inductive Value :=
| VUndefined
| VNull
| VBool (b : bool)
| VNumber (z : Z)
| VString (s : string)
| VError (message : string)
| VObject (tag : nat).

(** The result of running a piece of code: it returns or it throws. *)
Inductive Completion (A : Type) :=
| Normal (a : A)
| Throw (e : Value).
Arguments Normal {A} a.
Arguments Throw {A} e.

Definition bind {A B} (k : A → Completion B) (c : Completion A) : Completion B :=
  match c with
  | Normal a => k a
  | Throw e => Throw e
  end.

Definition string_of_nat (n : nat) : string :=
  NilZero.string_of_uint (Nat.to_uint n).

Definition string_of_Z (z : Z) : string :=
  NilZero.string_of_int (Z.to_int z).

(** The integers a Number holds exactly and prints digit by digit.  From
    2^53 on a Number is rounded to the nearest double, and from 10^21 on
    it is printed with an exponent. *)
Definition safe_integer (z : Z) : Prop := (- 2 ^ 53 < z < 2 ^ 53)%Z.

(** The values [toStr] prints as a template literal does: every value
    but a Number that is no safe integer. *)
Definition printable (v : Value) : Prop :=
  match v with
  | VNumber z => safe_integer z
  | _ => True
  end.

(** The property names a plain object has through [Object.prototype].
    [Reflect.has] answers true for them on every plain object, whatever
    its own properties, and [Reflect.get] then gives a function (for
    "__proto__" the prototype itself).  The names of the points of a
    Timeline are taken outside them. *)
Definition inherited (p : string) : bool :=
  bool_decide (p ∈ ["constructor"; "__defineGetter__"; "__defineSetter__";
                    "hasOwnProperty"; "__lookupGetter__"; "__lookupSetter__";
                    "isPrototypeOf"; "propertyIsEnumerable"; "toString";
                    "valueOf"; "__proto__"; "toLocaleString"]).

(** [`${v}`]: the string conversion a template literal applies, for a
    [printable] value. *)
Definition toStr (v : Value) : string :=
  match v with
  | VUndefined => "undefined"
  | VNull => "null"
  | VBool true => "true"
  | VBool false => "false"
  | VNumber z => string_of_Z z
  | VString s => s
  | VError "" => "Error"
  | VError m => "Error: " +:+ m
  | VObject _ => "[object Object]"
  end.

(** [Error(message)] *)
Definition Error (message : string) : Value := VError message.

End Js.

Import Js.

#[export] Instance Completion_bind : MBind Completion := @Js.bind.
#[export] Instance Completion_ret : MRet Completion := @Normal.

(** ** timeline.ts *)

Module TimelineModel.

Inductive ObserverAddBehavior := add | replace | prepend.

(** An observer is a function; [obs_id] is its identity as an object and
    [obs_run] what a call with the given arguments does. *)
Record ValidObserver := {
  obs_id : nat;
  obs_run : list Value → Completion Value
}.

(** What a caller can pass where an observer is expected; [isFunc] holds
    of the first kind only. *)
Inductive Handler :=
| HFunc (f : ValidObserver)
| HOther (v : Value).

(** [ObserverCollection = Record<string, ValidObserver[]>].  The arrays of
    a collection are reachable from that collection only (each is created
    by [addObserver] or by [cloneDeep]), so a collection is kept as one
    heap cell and an in-place change of one of its arrays is a change of
    the cell. *)
Abbreviation ObserverCollection := (gmap string (list ValidObserver)).

Definition loc := positive.
Abbreviation Heap := (gmap loc ObserverCollection).

(** A moment: [(this, handlers, ...args) => void]. *)
Abbreviation Moment := (list ValidObserver → list Value → Completion Value).

Record Timeline := {
  moments : gmap string Moment;
  observers : loc;
  _inheritingObservers : bool;
  _parentObservers : option loc
}.

Definition deref (h : Heap) (l : loc) : ObserverCollection :=
  default ∅ (h !! l).

Definition alloc (h : Heap) (c : ObserverCollection) : loc * Heap :=
  let l := fresh (dom h) in (l, <[l := c]> h).

(** [cloneDeep(target.observers)]: a new object with a copy of every
    array; the functions in the arrays are kept by reference. *)
Definition cloneDeep (h : Heap) (l : loc) : loc * Heap :=
  alloc h (deref h l).

(** [new Timeline(moments, observers?)] *)
Definition constructor (ms : gmap string Moment) (obs : option loc) (h : Heap)
  : Timeline * Heap :=
  match obs with
  | Some l =>
      ({| moments := ms; observers := l;
          _inheritingObservers := true; _parentObservers := None |}, h)
  | None =>
      let '(l, h') := alloc h ∅ in
      ({| moments := ms; observers := l;
          _inheritingObservers := false; _parentObservers := None |}, h')
  end.

(** [addObserver(target, moment, observer, addBehavior)], [target] being
    the collection at [l].  Returns the heap and [target[moment]].  For a
    [moment] that is not [inherited], [Reflect.has(target, moment)] is the
    lookup among the own properties of the collection. *)
Definition addObserver (h : Heap) (l : loc) (moment : string)
    (observer : Handler) (addBehavior : ObserverAddBehavior)
  : Heap * Completion (list ValidObserver) :=
  match observer with
  | HOther _ => (h, Throw (Error "Observers must be functions."))
  | HFunc f =>
      let target := deref h l in
      let arr :=
        match target !! moment with
        | None => [f]
        | Some existing =>
            match addBehavior with
            | add => existing ++ [f]
            | prepend => f :: existing
            | replace => [f]
            end
        end in
      (<[l := <[moment := arr]> target]> h, Normal arr)
  end.

(** The outcome of a method of a Timeline: the instance and the heap as
    the call leaves them, and what the call returned (or threw). *)
Record Outcome (A : Type) := {
  out_this : Timeline;
  out_heap : Heap;
  out_result : Completion A
}.
Arguments out_this {A}.
Arguments out_heap {A}.
Arguments out_result {A}.

(** [t.on[p](handler)] *)
Definition on (t : Timeline) (h : Heap) (p : string) (handler : Handler)
  : Outcome unit :=
  let '(t1, h1) :=
    if _inheritingObservers t then
      let '(copy, h') := cloneDeep h (observers t) in
      ({| moments := moments t; observers := copy;
          _inheritingObservers := false;
          _parentObservers := Some (observers t) |}, h')
    else (t, h) in
  let '(h2, r) := addObserver h1 (observers t1) p handler add in
  {| out_this := t1; out_heap := h2;
     out_result := (_ ← r; Normal tt) |}.

(** [t.on[p].replace(handler)] *)
Definition on_replace (t : Timeline) (h : Heap) (p : string) (handler : Handler)
  : Outcome unit :=
  let '(h2, r) := addObserver h (observers t) p handler replace in
  {| out_this := t; out_heap := h2;
     out_result := (_ ← r; Normal tt) |}.

(** [t.on[p].prepend(handler)] *)
Definition on_prepend (t : Timeline) (h : Heap) (p : string) (handler : Handler)
  : Outcome unit :=
  let '(h2, r) := addObserver h (observers t) p handler prepend in
  {| out_this := t; out_heap := h2;
     out_result := (_ ← r; Normal tt) |}.

(** [Reflect.has(target.observers, p) ? Reflect.get(target.observers, p) : []],
    for a point [p] that is not [inherited]. *)
Definition observersOf (t : Timeline) (h : Heap) (p : string) : list ValidObserver :=
  match deref h (observers t) !! p with
  | Some arr => arr
  | None => []
  end.

(** [t.on[p].toArray()]: a deep copy of the array, which as a value is
    the array. *)
Definition toArray (t : Timeline) (h : Heap) (p : string) : list ValidObserver :=
  observersOf t h p.

(** [t.clear[p]()], for a point [p] that is not [inherited]. *)
Definition clear (t : Timeline) (h : Heap) (p : string) : Outcome bool :=
  let target := deref h (observers t) in
  match target !! p with
  | Some _ =>
      {| out_this := t;
         out_heap := <[observers t := <[p := []]> target]> h;
         out_result := Normal true |}
  | None =>
      {| out_this := t; out_heap := h; out_result := Normal false |}
  end.

(** [t.resetObservers()] *)
Definition resetObservers (t : Timeline) : Timeline :=
  match _inheritingObservers t, _parentObservers t with
  | false, Some parent =>
      {| moments := moments t; observers := parent;
         _inheritingObservers := true; _parentObservers := None |}
  | _, _ => t
  end.

(** *** emit *)

(** Modelled from the spec: [broadcast] of moments.ts is not part of the
    sources at hand; it is the default dispatch, which "calls every
    observer for a point in order" and returns nothing.  An observer that
    throws ends the loop with its exception. *)
Fixpoint broadcast (obs : list ValidObserver) (args : list Value)
  : Completion Value :=
  match obs with
  | [] => Normal VUndefined
  | o :: rest =>
      match obs_run o args with
      | Normal _ => broadcast rest args
      | Throw e => Throw e
      end
  end.

(** What an [emit] did, in order: the calls of the emit proxy and the
    calls of dispatch functions. *)
Inductive EmitEvent :=
| Emitted (p : string) (args : list Value)
| Dispatched (p : string) (handlers : list nat) (args : list Value).

Definition first_arg (args : list Value) : Value :=
  match args with
  | [] => VUndefined
  | a :: _ => a
  end.

Definition is_empty_array (obs : list ValidObserver) : bool :=
  match obs with [] => true | _ => false end.

(** The body of the function the emit proxy returns for [p].  [self_error]
    stands for [this.emit.error], the one place where the body calls the
    proxy again.  No property named [__once...] is ever set on a Timeline
    (the two assignments are commented out), so the check for it at the
    head of the body does nothing.  For a point [p] that is not
    [inherited], [Reflect.has(target.moments, p)] is the lookup among the
    moments given to the constructor. *)
Definition emit_body
    (self_error : Value → list EmitEvent * Completion Value)
    (t : Timeline) (h : Heap) (p : string) (args : list Value)
  : list EmitEvent * Completion Value :=
  let obs := observersOf t h p in
  if bool_decide (p = "error") && is_empty_array obs then
    ([Emitted p args],
     Throw (Error ("Unhandled Exception: " +:+ toStr (first_arg args))))
  else
    let moment := default broadcast (moments t !! p) in
    let evs := [Emitted p args; Dispatched p (obs_id <$> obs) args] in
    match moment obs args with
    | Normal v => (evs, Normal v)
    | Throw e =>
        if bool_decide (p ≠ "error") then
          let '(evs', r) := self_error e in
          (evs ++ evs', _ ← r; Normal VUndefined)
        else
          (evs, Throw e)
    end.

(** [this.emit.error(e)]: for the point "error" the body never calls the
    proxy again, so the recursion ends here. *)
Definition emit_error (t : Timeline) (h : Heap) (e : Value)
  : list EmitEvent * Completion Value :=
  emit_body (λ _, ([], Normal VUndefined)) t h "error" [e].

(** [t.emit[p](...args)] *)
Definition emit (t : Timeline) (h : Heap) (p : string) (args : list Value)
  : list EmitEvent * Completion Value :=
  emit_body (emit_error t h) t h p args.

(** *** Reading what an emit did *)

(** The dispatch function [emit] resolves for a point. *)
Definition dispatch (t : Timeline) (p : string) : Moment :=
  default broadcast (moments t !! p).

Definition is_error_emit (ev : EmitEvent) : bool :=
  match ev with
  | Emitted p _ => bool_decide (p = "error")
  | Dispatched _ _ _ => false
  end.

(** How often the emit proxy was called for "error". *)
Definition error_emits (evs : list EmitEvent) : nat :=
  length (filter (λ ev, is_error_emit ev = true) evs).

End TimelineModel.

(** ** batch.ts *)

Module BatchModel.

(** *** Strings *)

(** [s.indexOf(needle)]; [None] is -1. *)
Fixpoint indexOf (needle s : string) : option nat :=
  if String.prefix needle s then Some 0
  else match s with
       | EmptyString => None
       | String _ s' => S <$> indexOf needle s'
       end.

(** [s.substr(start)] *)
Fixpoint substr (s : string) (start : nat) {struct start} : string :=
  match start with
  | 0 => s
  | S n =>
      match s with
      | String _ s' => substr s' n
      | EmptyString => EmptyString
      end
  end.

Definition lower (c : ascii) : ascii :=
  let n := nat_of_ascii c in
  if (65 <=? n) && (n <=? 90) then ascii_of_nat (n + 32) else c.

Fixpoint lowercase (s : string) : string :=
  match s with
  | EmptyString => EmptyString
  | String c s' => String (lower c) (lowercase s')
  end.

(** Modelled from the spec: [isUrlAbsolute] of @pnp/core is not part of
    the sources at hand.  An address is absolute when it carries a
    "scheme/host": it starts with [http://] or [https://] in any letter
    case, or with [//]. *)
Definition isUrlAbsolute (url : string) : bool :=
  let u := lowercase url in
  String.prefix "http://" u || String.prefix "https://" u || String.prefix "//" u.

(** [makeUrlRelative(url)] *)
Definition makeUrlRelative (url : string) : string :=
  if negb (isUrlAbsolute url) then url
  else
    match indexOf "/v1.0/" url with
    | None =>
        match indexOf "/beta/" url with
        | Some index => substr url (index + 6)
        | None => url
        end
    | Some index => substr url (index + 5)
    end.

(** [parseInt(s, 10)]: leading white space, an optional sign, then the
    longest run of decimal digits; [None] is NaN. *)
Definition is_space (c : ascii) : bool :=
  let n := nat_of_ascii c in
  (n =? 32) || ((9 <=? n) && (n <=? 13)).

Definition is_digit (c : ascii) : bool :=
  let n := nat_of_ascii c in (48 <=? n) && (n <=? 57).

Fixpoint trimStart (s : string) : string :=
  match s with
  | String c s' => if is_space c then trimStart s' else s
  | EmptyString => EmptyString
  end.

Fixpoint digits (s : string) : string :=
  match s with
  | String c s' => if is_digit c then String c (digits s') else EmptyString
  | EmptyString => EmptyString
  end.

Definition parseInt (s : string) : option Z :=
  let s1 := trimStart s in
  let '(negative, s2) :=
    match s1 with
    | String "-" r => (true, r)
    | String "+" r => (false, r)
    | _ => (false, s1)
    end in
  match digits s2 with
  | EmptyString => None
  | ds =>
      d ← NilEmpty.uint_of_string ds;
      let n := Z.of_nat (Nat.of_uint d) in
      Some (if negative : bool then (- n)%Z else n)
  end.

(** *** Wire types *)

(** A JSON value, kept as its canonical text: [JSON.stringify] of a value
    is the text, [JSON.parse] of that text is the value. *)
Definition Json := string.

(** [init.body] as it reaches the batch: text that [JSON.parse] accepts,
    or text on which it throws a SyntaxError. *)
Inductive BodyInit :=
| JsonText (j : Json)
| Malformed (text : string).

Definition JSON_parse (b : BodyInit) : Completion Json :=
  match b with
  | JsonText j => Normal j
  | Malformed _ => Throw (VError "SyntaxError: Unexpected token in JSON")
  end.

Record RequestInit := {
  init_method : string;
  init_headers : gmap string string;
  init_body : option BodyInit
}.

(** [RequestRecord]: the queryable, the url, the init, and the [resolve]
    and [reject] functions of the promise made for the operation;
    [rr_promise] names that promise. *)
Record RequestRecord := {
  rr_queryable : nat;
  rr_url : string;
  rr_init : RequestInit;
  rr_promise : nat
}.

Record IGraphBatchRequestFragment := {
  frag_id : string;
  frag_method : string;
  frag_url : string;
  frag_headers : gmap string string;
  frag_body : option Json
}.

Record IGraphBatchResponseFragment := {
  rf_id : string;
  rf_status : Z;
  rf_statusText : option string;
  rf_headers : gmap string string;
  rf_body : option Json
}.

Record BatchError := {
  err_code : string;
  err_message : string
}.

Record IGraphBatchResponse := {
  gr_error : option BatchError;
  gr_responses : list IGraphBatchResponseFragment;
  gr_nextLink : option string
}.

(** The fetch [Response]. *)
Record Response := {
  resp_body : option string;
  resp_status : Z;
  resp_statusText : string;
  resp_headers : gmap string string
}.

(** An element of the [parsedResponses] array: [null] from [fill(null)],
    a hole left by a write beyond the end, or a Response. *)
Inductive Slot :=
| SNull
| SHole
| SResp (r : Response).

Record ParsedGraphResponse := {
  nextLink : option string;
  responses : list Slot
}.

(** *** formatRequests *)

(** The callback of [requests.map] at [index].  The [queryable.log] call
    is an emit of "log" on the operation's own timeline; it leaves the
    batch untouched and is taken to return, which it does unless a log
    observer of that timeline throws and its "error" point throws in
    turn.  What is left is what the callback does with the record. *)
Definition formatRequest (index : nat) (reqInfo : RequestRecord)
  : Completion IGraphBatchRequestFragment :=
  let init := rr_init reqInfo in
  let headers := init_headers init in
  let headers :=
    if bool_decide (init_method init ≠ "GET")
    then <["Content-Type" := "application/json"]> headers
    else headers in
  match init_body init with
  | Some b =>
      parsed ← JSON_parse b;
      Normal {| frag_id := string_of_nat (S index);
                frag_method := init_method init;
                frag_url := makeUrlRelative (rr_url reqInfo);
                frag_headers := headers;
                frag_body := Some parsed |}
  | None =>
      Normal {| frag_id := string_of_nat (S index);
                frag_method := init_method init;
                frag_url := makeUrlRelative (rr_url reqInfo);
                frag_headers := headers;
                frag_body := None |}
  end.

Fixpoint formatRequests_from (index : nat) (requests : list RequestRecord)
  : Completion (list IGraphBatchRequestFragment) :=
  match requests with
  | [] => Normal []
  | reqInfo :: rest =>
      fragment ← formatRequest index reqInfo;
      fragments ← formatRequests_from (S index) rest;
      Normal (fragment :: fragments)
  end.

(** [formatRequests(requests, batchId)] *)
Definition formatRequests (requests : list RequestRecord)
  : Completion (list IGraphBatchRequestFragment) :=
  formatRequests_from 0 requests.

(** *** parseResponse *)

(** [arr[i] = v] on a JavaScript array: a write beyond the end extends
    the array and leaves holes. *)
Definition array_set (arr : list Slot) (i : nat) (v : Slot) : list Slot :=
  if decide (i < length arr) then <[i := v]> arr
  else arr ++ replicate (i - length arr) SHole ++ [v].

(** [arr[k] = v] for a number [k]: when [k] is not an array index
    (negative, or NaN) the write makes a property beside the elements. *)
Definition array_put (arr : list Slot) (k : option Z) (v : Slot) : list Slot :=
  match k with
  | Some z => if decide (0 ≤ z)%Z then array_set arr (Z.to_nat z) v else arr
  | None => arr
  end.

(** [new Response()] *)
Definition empty_Response : Response :=
  {| resp_body := None; resp_status := 200%Z; resp_statusText := "";
     resp_headers := ∅ |}.

(** [new Response(JSON.stringify(response.body), response)], for a
    fragment the constructor accepts (see [constructible] below).  The
    record keeps the body, the status and the status text, and the headers
    as they were given: the header the constructor adds for the type of
    the body, and its folding of header names, are not represented. *)
Definition new_Response (response : IGraphBatchResponseFragment) : Response :=
  {| resp_body := rf_body response;
     resp_status := rf_status response;
     resp_statusText := default "" (rf_statusText response);
     resp_headers := rf_headers response |}.

(** The body of the [for] loop of [parseResponse]. *)
Definition place (parsedResponses : list Slot)
    (response : IGraphBatchResponseFragment) : list Slot :=
  let responseId := (λ n, n - 1)%Z <$> parseInt (rf_id response) in
  if decide (rf_status response = 204%Z)
  then array_put parsedResponses responseId (SResp empty_Response)
  else array_put parsedResponses responseId (SResp (new_Response response)).

Definition batch_error (e : BatchError) : Value :=
  Error ("Error Porcessing Batch: (" +:+ err_code e +:+ ") " +:+ err_message e).

(** [parseResponse(graphResponse)]: the promise it returns is rejected
    ([Throw]) or resolved ([Normal]). *)
Definition parseResponse (graphResponse : IGraphBatchResponse)
  : Completion ParsedGraphResponse :=
  match gr_error graphResponse with
  | Some e => Throw (batch_error e)
  | None =>
      let parsedResponses := replicate (length (gr_responses graphResponse)) SNull in
      Normal {| nextLink := gr_nextLink graphResponse;
                responses := foldl place parsedResponses (gr_responses graphResponse) |}
  end.

(** The function [BatchParse] hands to [parseBinderWithErrorCheck],
    applied to the JSON of the response. *)
Definition BatchParse (graphResponse : IGraphBatchResponse)
  : Completion ParsedGraphResponse :=
  match gr_error graphResponse with
  | Some e => Throw (batch_error e)
  | None => parseResponse graphResponse
  end.

(** When the [Response] constructor returns.  [new_Response] stands for
    the constructor on the fragments it accepts: it throws a RangeError
    for a status outside 200..599, and a TypeError for a body given with a
    status that allows none, for a status text that is no reason phrase and
    for a header whose name is no token or whose value holds NUL, LF or CR.
    A fragment of status 204 is never handed to it. *)
Fixpoint all_chars (ok : nat → bool) (s : string) : bool :=
  match s with
  | EmptyString => true
  | String c rest => ok (nat_of_ascii c) && all_chars ok rest
  end.

Definition token_char (n : nat) : bool :=
  (33 <=? n) && (n <=? 126)
  && negb (bool_decide (n ∈ [34; 40; 41; 44; 47; 58; 59; 60; 61; 62; 63; 64;
                              91; 92; 93; 123; 125])).

Definition header_name (s : string) : bool :=
  bool_decide (s ≠ EmptyString) && all_chars token_char s.

Definition header_value (s : string) : bool :=
  all_chars (λ n, negb (bool_decide (n ∈ [0; 10; 13]))) s.

Definition reason_phrase (s : string) : bool :=
  all_chars (λ n, (n =? 9) || ((32 <=? n) && negb (n =? 127))) s.

Definition constructible (r : IGraphBatchResponseFragment) : Prop :=
  rf_status r = 204%Z
  ∨ ((200 ≤ rf_status r ≤ 599)%Z
     ∧ (rf_body r = None ∨ (rf_status r ≠ 205 ∧ rf_status r ≠ 304)%Z)
     ∧ reason_phrase (default EmptyString (rf_statusText r)) = true
     ∧ map_Forall (λ name value, header_name name = true
                                 ∧ header_value value = true)
                  (rf_headers r)).

(** The Response made for a fragment. *)
Definition decoded (r : IGraphBatchResponseFragment) : Response :=
  if decide (rf_status r = 204%Z) then empty_Response else new_Response r.

(** The array index a fragment's id stands for, when it is one. *)
Definition position (r : IGraphBatchResponseFragment) : option nat :=
  match parseInt (rf_id r) with
  | Some z => if decide (1 ≤ z)%Z then Some (Z.to_nat (z - 1)) else None
  | None => None
  end.

(** Fragments whose ids all point into an array of length [n]. *)
Definition in_range (n : nat) (rs : list IGraphBatchResponseFragment) : Prop :=
  Forall (λ r, ∃ i, position r = Some i ∧ i < n) rs.

(** *** createBatch *)

(** What the network gives back for one aggregate call: a failure of the
    transport, or the JSON of the aggregate response. *)
Inductive NetOutcome :=
| NetRaise (e : Value)
| NetJson (graphResponse : IGraphBatchResponse).

(** Modelled from the spec: [graphPost], [BatchQueryable] and
    [parseBinderWithErrorCheck] are not part of the sources at hand.  The
    transport "may raise a transport-level failure"; otherwise the parser
    that [BatchParse] installs decodes the JSON, and what it throws
    rejects the promise of [graphPost].  Transmission is an asynchronous
    operation that suspends "at transport boundaries": the call of
    [graphPost] starts the request pipeline and returns its promise; the
    request leaves for the network in a task of its own, after the code
    that made the call and the microtasks it left behind have run. *)
Definition graphPost (net : NetOutcome) : Completion ParsedGraphResponse :=
  match net with
  | NetRaise e => Throw e
  | NetJson graphResponse => BatchParse graphResponse
  end.

(** What a flush does that can be seen from outside, in order: an
    aggregate request leaves for the network, a resolver or a rejecter of
    an operation is called, a chain of callbacks ends in a rejection, the
    promise of [execute] is settled. *)
Inductive Event :=
| Transmit (batchRequest : list IGraphBatchRequestFragment)
| Resolve (promise : nat) (response : Slot)
| Reject (promise : nat) (reason : Value)
| ChainRejected (reason : Value)
| FlushResolved
| FlushRejected (reason : Value).

(** The jobs of the microtask queue: the rest of [execute] after its
    [await graphPost(...)], and the callback that [reduce] chained with
    [p.then] for the elements of [response.responses] still to deliver. *)
Inductive Job :=
| Resume (outcome : Completion ParsedGraphResponse)
         (requestsChunk requestsWorkingCopy : list RequestRecord)
| Then (requestsChunk : list RequestRecord) (elements : list (nat * Slot)).

(** A call of [graphPost] whose request has not left yet: the aggregate
    request, and what [execute] holds while it awaits the call. *)
Record PendingCall := {
  call_request : list IGraphBatchRequestFragment;
  call_chunk : list RequestRecord;
  call_rest : list RequestRecord
}.

(** The event loop: the microtask queue, the call of [graphPost] that
    waits for its task, what happened so far, and the number of requests
    that have left. *)
Record Loop := {
  microtasks : list Job;
  inflight : option PendingCall;
  trace : list Event;
  calls : nat
}.

Record BatchQueue := {
  registrationPromises : list bool;
  requests : list RequestRecord
}.

Definition createBatch : BatchQueue :=
  {| registrationPromises := []; requests := [] |}.

(** [register(instance)]: pushes a pending registration promise; the
    number returned names it for the send observer installed. *)
Definition register (q : BatchQueue) : nat * BatchQueue :=
  (length (registrationPromises q),
   {| registrationPromises := registrationPromises q ++ [false];
      requests := requests q |}).

(** The observer [register] puts on [send], called with [url] and [init]
    on the queryable [this]: it makes the promise of the operation, pushes
    the record, resolves the registration and returns the promise. *)
Definition send (q : BatchQueue) (registration : nat)
    (this : nat) (url : string) (init : RequestInit) : nat * BatchQueue :=
  let promise := length (requests q) in
  (promise,
   {| registrationPromises := <[registration := true]> (registrationPromises q);
      requests := requests q ++
        [{| rr_queryable := this; rr_url := url; rr_init := init;
            rr_promise := promise |}] |}).

(** The elements [reduce] visits, with their indices: holes are skipped. *)
Fixpoint present (index : nat) (arr : list Slot) : list (nat * Slot) :=
  match arr with
  | [] => []
  | SHole :: rest => present (S index) rest
  | v :: rest => (index, v) :: present (S index) rest
  end.

(** [resolve] is the resolving function of a promise: it settles the
    promise if it is pending and returns. *)
Definition call_resolve (record : RequestRecord) (response : Slot)
  : list Event * Completion unit :=
  ([Resolve (rr_promise record) response], Normal tt).

(** The callback given to [p.then] for the element [response] at [index]. *)
Definition deliver (requestsChunk : list RequestRecord) (index : nat)
    (response : Slot) : list Event * Completion unit :=
  match requestsChunk !! index with
  | None => ([], Throw (VError "TypeError: undefined is not iterable"))
  | Some record =>
      match call_resolve record response with
      | (evs, Normal _) => (evs, Normal tt)
      | (evs, Throw e) => (evs ++ [Reject (rr_promise record) e], Normal tt)
      end
  end.

Definition log (st : Loop) (evs : list Event) : Loop :=
  {| microtasks := microtasks st; inflight := inflight st;
     trace := trace st ++ evs; calls := calls st |}.

(** A promise of the chain is fulfilled: its reaction, the callback for
    the next element, becomes a microtask. *)
Definition enqueue_then (requestsChunk : list RequestRecord)
    (elements : list (nat * Slot)) (st : Loop) : Loop :=
  match elements with
  | [] => st
  | _ =>
      {| microtasks := microtasks st ++ [Then requestsChunk elements];
         inflight := inflight st; trace := trace st; calls := calls st |}
  end.

(** *** Reading a flush *)

(** The events of a chain of [then] callbacks: one [resolve] per element,
    up to the first element whose index has no record in the chunk. *)
Fixpoint chain_events (requestsChunk : list RequestRecord)
    (elements : list (nat * Slot)) : list Event :=
  match elements with
  | [] => []
  | (index, response) :: rest =>
      match requestsChunk !! index with
      | None => [ChainRejected (VError "TypeError: undefined is not iterable")]
      | Some record =>
          Resolve (rr_promise record) response :: chain_events requestsChunk rest
      end
  end.

Definition at_rest (j : option PendingCall) (tr : list Event) (k : nat) : Loop :=
  {| microtasks := []; inflight := j; trace := tr; calls := k |}.

(** The chunks [splice(0, n)] takes off a list, one after the other. *)
Fixpoint slices_fuel (fuel n : nat) (l : list RequestRecord)
  : list (list RequestRecord) :=
  match fuel, l with
  | _, [] => []
  | 0, _ => []
  | S fuel', _ => take n l :: slices_fuel fuel' n (drop n l)
  end.

Definition slices (n : nat) (l : list RequestRecord) : list (list RequestRecord) :=
  slices_fuel (length l) n l.

(** All registrations have reached [send]. *)
Definition registered (q : BatchQueue) : Prop :=
  forallb id (registrationPromises q) = true.

(** The promises whose [resolve] was called, in the order of the calls. *)
Definition resolved (tr : list Event) : list nat :=
  omap (λ ev, match ev with Resolve p _ => Some p | _ => None end) tr.

(** The promises whose [reject] was called. *)
Definition rejected (tr : list Event) : list nat :=
  omap (λ ev, match ev with Reject p _ => Some p | _ => None end) tr.

(** The aggregate requests that left for the network, in order. *)
Definition transmitted (tr : list Event) : list (list IGraphBatchRequestFragment) :=
  omap (λ ev, match ev with Transmit b => Some b | _ => None end) tr.

(** How often [p] occurs in a list of promises. *)
Definition times (p : nat) (l : list nat) : nat :=
  length (filter (λ x, x = p) l).

(** The body of the operation, when there is one, is text [JSON.parse]
    accepts. *)
Definition well_formed (r : RequestRecord) : Prop :=
  ∀ text, init_body (rr_init r) ≠ Some (Malformed text).

Section Execute.

(** The network: what the [n]-th aggregate call of the flush gets. *)
Variable transport : nat → list IGraphBatchRequestFragment → NetOutcome.
Variable maxRequests : nat.

(** [execute] from the test of its [while] up to the next [await], or to
    its end.  The call of [graphPost] leaves the request waiting for its
    task. *)
Definition loop (requestsWorkingCopy : list RequestRecord) (st : Loop) : Loop :=
  match requestsWorkingCopy with
  | [] => log st [FlushResolved]
  | _ =>
      let requestsChunk := take maxRequests requestsWorkingCopy in
      let requestsWorkingCopy := drop maxRequests requestsWorkingCopy in
      match formatRequests requestsChunk with
      | Throw e => log st [FlushRejected e]
      | Normal batchRequest =>
          {| microtasks := microtasks st;
             inflight :=
               Some {| call_request := batchRequest;
                       call_chunk := requestsChunk;
                       call_rest := requestsWorkingCopy |};
             trace := trace st;
             calls := calls st |}
      end
  end.

Definition run_job (j : Job) (st : Loop) : Loop :=
  match j with
  | Resume (Throw e) _ _ => log st [FlushRejected e]
  | Resume (Normal response) requestsChunk requestsWorkingCopy =>
      loop requestsWorkingCopy
           (enqueue_then requestsChunk (present 0 (responses response)) st)
  | Then _ [] => st
  | Then requestsChunk ((index, response) :: rest) =>
      match deliver requestsChunk index response with
      | (evs, Normal _) => enqueue_then requestsChunk rest (log st evs)
      | (evs, Throw e) => log st (evs ++ [ChainRejected e])
      end
  end.

(** One turn of the event loop: the oldest microtask if there is one.
    A task runs only when no microtask is left: then the request of the
    waiting call leaves, and what the network gives back settles the
    promise [execute] awaits, whose reaction is the next microtask. *)
Definition step (st : Loop) : option Loop :=
  match microtasks st with
  | j :: q =>
      Some (run_job j {| microtasks := q; inflight := inflight st;
                         trace := trace st; calls := calls st |})
  | [] =>
      match inflight st with
      | Some c =>
          Some {| microtasks :=
                    [Resume (graphPost (transport (calls st) (call_request c)))
                            (call_chunk c) (call_rest c)];
                  inflight := None;
                  trace := trace st ++ [Transmit (call_request c)];
                  calls := S (calls st) |}
      | None => None
      end
  end.

Fixpoint run (fuel : nat) (st : Loop) : Loop :=
  match fuel with
  | 0 => st
  | S fuel' =>
      match step st with
      | Some st' => run fuel' st'
      | None => st
      end
  end.

Definition idle : Loop :=
  {| microtasks := []; inflight := None; trace := []; calls := 0 |}.

(** [execute()] up to its first [await graphPost(...)].  While a
    registration promise is pending, [Promise.all] does not settle and
    nothing happens. *)
Definition execute (q : BatchQueue) : Loop :=
  if forallb id (registrationPromises q) then
    match requests q with
    | [] => log idle [FlushResolved]
    | _ => loop (requests q) idle
    end
  else idle.

(** The flush: [execute()] and the turns of the event loop after it. *)
Definition flush (fuel : nat) (q : BatchQueue) : Loop :=
  run fuel (execute q).

(** The events of [execute] from the test of its loop on, [chunks] being
    the chunks still to send, [k] the number of requests that have left
    and [pending] the events of the chain of the chunk before, which run
    at the next [await], before the next request leaves, or at the end. *)
Fixpoint expected (k : nat) (chunks : list (list RequestRecord))
    (pending : list Event) : list Event :=
  match chunks with
  | [] => FlushResolved :: pending
  | requestsChunk :: chunks' =>
      match formatRequests requestsChunk with
      | Throw e => FlushRejected e :: pending
      | Normal batchRequest =>
          pending ++ Transmit batchRequest ::
            match graphPost (transport k batchRequest) with
            | Throw e => [FlushRejected e]
            | Normal response =>
                expected (S k) chunks'
                  (chain_events requestsChunk (present 0 (responses response)))
            end
      end
  end.

(** Every aggregate call comes back with a response that decodes. *)
Definition answers : Prop :=
  ∀ k batchRequest, ∃ response, graphPost (transport k batchRequest) = Normal response.

(** Every aggregate call comes back with a response without a top-level
    error that carries the id of every fragment sent, once, in any order. *)
Definition echoes : Prop :=
  ∀ k batchRequest, ∃ reply rs next,
    transport k batchRequest
    = NetJson {| gr_error := None; gr_responses := rs; gr_nextLink := next |}
    ∧ (∀ fr, rf_id (reply fr) = frag_id fr)
    ∧ rs ≡ₚ reply <$> batchRequest.

(** Every fragment that comes back is one the [Response] constructor
    accepts. *)
Definition accepted : Prop :=
  ∀ k batchRequest graphResponse,
    transport k batchRequest = NetJson graphResponse →
    Forall constructible (gr_responses graphResponse).

End Execute.

End BatchModel.

(** ** invitations/index.ts *)

Module InvitationsModel.

(** The statements a property getter is made of here. *)
Inductive Expr :=
| ThisCreate (factory : string).

Inductive Stmt :=
| ExprStmt (e : Expr)
| Return (e : Expr).

Section Getter.

(** [GraphRest] instances, and [this.create(factory)] of rest.ts, which
    builds the queryable for [factory] from the root of [this]. *)
Variable GraphRest : Type.
Variable create : GraphRest → string → Value.

Definition eval (this : GraphRest) (e : Expr) : Value :=
  match e with
  | ThisCreate factory => create this factory
  end.

(** [[Call]] of a function with the given body: the value of the first
    [return] reached, [undefined] when the body ends without one. *)
Fixpoint call (body : list Stmt) (this : GraphRest) : Value :=
  match body with
  | [] => VUndefined
  | ExprStmt e :: rest => let _ := eval this e in call rest this
  | Return e :: _ => eval this e
  end.

(** [get: function (this: GraphRest) { this.create(Invitations); }] *)
Definition invitations_get : list Stmt :=
  [ExprStmt (ThisCreate "Invitations")].

(** Reading [g.invitations]: the property is an accessor, the read calls
    its getter with [g] as [this]. *)
Definition invitations (g : GraphRest) : Value :=
  call invitations_get g.

End Getter.

End InvitationsModel.

(** ** Concrete timelines and queues *)

Module Scenarios.

Import TimelineModel BatchModel.

Definition quiet (n : nat) : ValidObserver :=
  {| obs_id := n; obs_run := λ _, Normal VUndefined |}.

(** A parent collection [{ x: [o1] }] at location 1. *)
Definition parent_heap : Heap := {[ 1%positive := {[ "x" := [quiet 1] ]} ]}.

(** Two instances made with that collection. *)
Definition child_A : Timeline := (constructor ∅ (Some 1%positive) parent_heap).1.

Definition child_B : Timeline := (constructor ∅ (Some 1%positive) parent_heap).1.

(** A dispatch function that refuses an empty list of observers, and a
    timeline that uses it for the point "x". *)
Definition picky : Moment :=
  λ obs _, match obs with
           | [] => Throw (Error "nobody listens")
           | _ => Normal VUndefined
           end.

Definition picky_timeline : Timeline :=
  (constructor {[ "x" := picky ]} None ∅).1.

Definition picky_heap : Heap :=
  (constructor {[ "x" := picky ]} None ∅).2.

(** A dispatch function that always raises. *)
Definition failing : Moment := λ _ _, Throw (Error "dispatch failed").

Definition failing_timeline : Timeline :=
  (constructor {[ "x" := failing ]} None ∅).1.

Definition get_request (n : nat) (url : string) : RequestRecord :=
  {| rr_queryable := n; rr_url := url;
     rr_init := {| init_method := "GET"; init_headers := ∅; init_body := None |};
     rr_promise := n |}.

Definition ok_fragment (id : string) (body : Json) : IGraphBatchResponseFragment :=
  {| rf_id := id; rf_status := 200; rf_statusText := None; rf_headers := ∅;
     rf_body := Some body |}.

(** [n] operations, each registered and then sent. *)
Fixpoint queue_of (n : nat) : BatchQueue :=
  match n with
  | 0 => createBatch
  | S n' =>
      let '(registration, q) := register (queue_of n') in
      (send q registration n' "https://graph.microsoft.com/v1.0/me"
            {| init_method := "GET"; init_headers := ∅; init_body := None |}).2
  end.

Definition echo_reply (fr : IGraphBatchRequestFragment) : IGraphBatchResponseFragment :=
  ok_fragment (frag_id fr) "{}".

(** A network that answers every fragment with status 200. *)
Definition echo_transport (k : nat) (b : list IGraphBatchRequestFragment) : NetOutcome :=
  NetJson {| gr_error := None; gr_responses := echo_reply <$> b;
             gr_nextLink := None |}.

(** A network that is down. *)
Definition raising_transport (k : nat) (b : list IGraphBatchRequestFragment)
  : NetOutcome :=
  NetRaise (Error "Failed to fetch").

Definition bad_request : BatchError :=
  {| err_code := "BadRequest"; err_message := "Invalid batch payload format." |}.

(** A network whose answers carry a top-level error. *)
Definition error_transport (k : nat) (b : list IGraphBatchRequestFragment)
  : NetOutcome :=
  NetJson {| gr_error := Some bad_request; gr_responses := [];
             gr_nextLink := None |}.

(** A network that answers the first fragment only. *)
Definition short_transport (k : nat) (b : list IGraphBatchRequestFragment)
  : NetOutcome :=
  NetJson {| gr_error := None; gr_responses := echo_reply <$> take 1 b;
             gr_nextLink := None |}.

(** A trace without the payloads: the size of each aggregate request and
    the promise of each call. *)
Inductive Mark :=
| Sent (size : nat)
| Resolved (promise : nat)
| Rejected (promise : nat)
| ChainFailed
| FlushDone
| FlushFailed (reason : Value).

Definition mark (ev : Event) : Mark :=
  match ev with
  | Transmit b => Sent (length b)
  | Resolve p _ => Resolved p
  | Reject p _ => Rejected p
  | ChainRejected _ => ChainFailed
  | FlushResolved => FlushDone
  | FlushRejected e => FlushFailed e
  end.

End Scenarios.

(** ** The public surface of a Timeline as a sequence of calls *)

Module Usage.

Import TimelineModel BatchModel.

(** A call a user of a Timeline can make on its observers. *)
Inductive Call :=
| CallOn (p : string) (handler : Handler)
| CallReplace (p : string) (handler : Handler)
| CallPrepend (p : string) (handler : Handler)
| CallClear (p : string)
| CallReset.

(** The instance and the heap after a call, whether it returned or threw. *)
Definition perform (st : Timeline * Heap) (c : Call) : Timeline * Heap :=
  let '(t, h) := st in
  match c with
  | CallOn p handler =>
      let r := on t h p handler in (out_this r, out_heap r)
  | CallReplace p handler =>
      let r := on_replace t h p handler in (out_this r, out_heap r)
  | CallPrepend p handler =>
      let r := on_prepend t h p handler in (out_this r, out_heap r)
  | CallClear p =>
      let r := clear t h p in (out_this r, out_heap r)
  | CallReset => (resetObservers t, h)
  end.

Definition perform_all (st : Timeline * Heap) (cs : list Call) : Timeline * Heap :=
  foldl perform st cs.

(** The working collection exists; an inheriting instance holds no parent;
    a stored parent exists and is not the working collection. *)
Definition sound (st : Timeline * Heap) : Prop :=
  let '(t, h) := st in
  observers t ∈ dom h
  ∧ (_inheritingObservers t = true → _parentObservers t = None)
  ∧ (∀ l, _parentObservers t = Some l → l ∈ dom h ∧ l ≠ observers t).

(** [register(instance)], the part that touches the instance:
    [instance.on.send.replace(observer)]. *)
Definition install_send (t : Timeline) (h : Heap) (observer : ValidObserver)
  : Outcome unit :=
  on_replace t h "send" (HFunc observer).

(** The calls of [resolve] with the values passed, in order. *)
Definition resolutions (tr : list Event) : list (nat * Slot) :=
  omap (λ ev, match ev with Resolve p v => Some (p, v) | _ => None end) tr.

(** How the promise of [execute] was settled: [None] for resolved, the
    reason for rejected. *)
Definition settlements (tr : list Event) : list (option Value) :=
  omap (λ ev, match ev with
              | FlushResolved => Some None
              | FlushRejected e => Some (Some e)
              | _ => None
              end) tr.

(** With [maxRequests = 0] the loop takes empty chunks off a working copy
    that stays as it is.  The states the event loop then goes through: a
    call waiting with an empty request for an empty chunk, with chains
    over an empty chunk queued; or the resumption for such a call as the
    only microtask.  No request sent has a fragment, nothing is resolved
    or settled. *)
Definition spinning (workingCopy : list RequestRecord) (st : Loop) : Prop :=
  (inflight st = Some {| call_request := []; call_chunk := [];
                         call_rest := workingCopy |}
   ∧ Forall (λ j, ∃ elements, j = Then [] elements) (microtasks st)
   ∨ (∃ r, inflight st = None
           ∧ microtasks st = [Resume (Normal r) [] workingCopy]))
  ∧ Forall (λ b, b = []) (transmitted (trace st))
  ∧ resolved (trace st) = []
  ∧ settlements (trace st) = [].

(** With [maxRequests = 0] every chunk is empty: the jobs and the waiting
    call of the event loop hold empty chunks, and no resolver or rejecter
    has been called. *)
Definition empty_chunks (st : Loop) : Prop :=
  Forall (λ j, match j with
               | Resume _ requestsChunk _ => requestsChunk = []
               | Then requestsChunk _ => requestsChunk = []
               end) (microtasks st)
  ∧ (∀ c, inflight st = Some c → call_chunk c = [])
  ∧ resolved (trace st) = []
  ∧ rejected (trace st) = [].



End Usage.

(** * Properties *)

(** ** Timeline: copy-on-first-write *)

Section TimelineObservers.

Import TimelineModel Scenarios.

Implicit Types (t : Timeline) (h : Heap) (p : string) (f : ValidObserver).

Lemma deref_insert_eq h l c : deref (<[l := c]> h) l = c.
Proof. unfold deref. by rewrite lookup_insert_eq. Qed.

Lemma deref_insert_ne h l l' c : l ≠ l' → deref (<[l := c]> h) l' = deref h l'.
Proof. intros Hne. unfold deref. by rewrite lookup_insert_ne. Qed.

Lemma alloc_fresh h c : (alloc h c).1 ∉ dom h.
Proof. unfold alloc; simpl. apply is_fresh. Qed.

(** [addObserver] writes the collection it is given and no other. *)
Lemma addObserver_frame h l l' p hd b :
  l ≠ l' → (addObserver h l p hd b).1 !! l' = h !! l'.
Proof.
  intros Hne. unfold addObserver. destruct hd as [f|v]; simpl; [|done].
  by rewrite lookup_insert_ne.
Qed.

(** The plain subscription of an inheriting instance keeps the parent,
    works on a copy and appends there: the parent's collection is left as
    it was. *)
Lemma on_copy_on_first_write t h p f :
  _inheritingObservers t = true →
  observers t ∈ dom h →
  let r := on t h p (HFunc f) in
  out_result r = Normal tt
  ∧ _inheritingObservers (out_this r) = false
  ∧ _parentObservers (out_this r) = Some (observers t)
  ∧ observers (out_this r) ≠ observers t
  ∧ out_heap r !! observers t = h !! observers t
  ∧ deref (out_heap r) (observers (out_this r))
    = <[p := observersOf t h p ++ [f]]> (deref h (observers t)).
Proof.
  intros Hinh Hdom. unfold on. rewrite Hinh. unfold cloneDeep.
  pose proof (alloc_fresh h (deref h (observers t))) as Hfresh.
  unfold alloc in *. simpl in *.
  set (l := fresh (dom h)) in *.
  assert (l ≠ observers t) as Hne by (intros ->; done).
  repeat split; try done.
  - by rewrite lookup_insert_ne, lookup_insert_ne.
  - rewrite deref_insert_eq, deref_insert_eq. unfold observersOf.
    by destruct (deref h (observers t) !! p).
Qed.

(** Once an instance owns its collection, none of its four mutators
    touches another collection that is already there. *)
Lemma owning_mutations_are_local t h p hd l :
  _inheritingObservers t = false →
  l ≠ observers t →
  out_heap (on t h p hd) !! l = h !! l
  ∧ out_heap (on_replace t h p hd) !! l = h !! l
  ∧ out_heap (on_prepend t h p hd) !! l = h !! l
  ∧ out_heap (clear t h p) !! l = h !! l.
Proof.
  intros Hown Hne. unfold on, on_replace, on_prepend, clear. rewrite Hown.
  repeat split.
  - destruct (addObserver h (observers t) p hd add) as [h2 r] eqn:E; simpl.
    change h2 with ((h2, r).1). rewrite <- E. by apply addObserver_frame.
  - destruct (addObserver h (observers t) p hd replace) as [h2 r] eqn:E; simpl.
    change h2 with ((h2, r).1). rewrite <- E. by apply addObserver_frame.
  - destruct (addObserver h (observers t) p hd prepend) as [h2 r] eqn:E; simpl.
    change h2 with ((h2, r).1). rewrite <- E. by apply addObserver_frame.
  - destruct (deref h (observers t) !! p); simpl; [|done].
    by rewrite lookup_insert_ne.
Qed.

(** After that first write, [resetObservers] puts the instance back on the
    parent's collection. *)
Lemma reset_after_first_write t h p f :
  _inheritingObservers t = true → _parentObservers t = None →
  resetObservers (out_this (on t h p (HFunc f))) = t.
Proof.
  intros Hinh Hpar. unfold on. rewrite Hinh. simpl.
  destruct t as [ms obs inh par]. simpl in *. by subst.
Qed.

(** [replace], [prepend] and [clear] leave the instance as it is: they
    never copy, whatever the mode of the instance. *)
Lemma other_mutators_keep_registry t h p hd :
  out_this (on_replace t h p hd) = t
  ∧ out_this (on_prepend t h p hd) = t
  ∧ out_this (clear t h p) = t.
Proof.
  unfold on_replace, on_prepend, clear. repeat split.
  - by destruct (addObserver h (observers t) p hd replace).
  - by destruct (addObserver h (observers t) p hd prepend).
  - by destruct (deref h (observers t) !! p).
Qed.

(** C1, at [A.on.x.replace(o2)], [A.on.x.prepend(o2)] and [A.clear.x()]
    as the first mutation of an inheriting instance [A]: no copy is taken
    and no parent is stored; [A] still works on the parent's collection,
    which is changed in place, and the sibling [B] sees the change.  The
    plain [A.on.x(o2)] on the same input does copy. *)
Theorem first_mutation_without_copy :
  let r := on_replace child_A parent_heap "x" (HFunc (quiet 2)) in
  let r' := on_prepend child_A parent_heap "x" (HFunc (quiet 2)) in
  let c := clear child_A parent_heap "x" in
  let a := on child_A parent_heap "x" (HFunc (quiet 2)) in
  (observers (out_this r) = 1%positive
   ∧ _inheritingObservers (out_this r) = true
   ∧ _parentObservers (out_this r) = None
   ∧ obs_id <$> toArray child_B (out_heap r) "x" = [2])
  ∧ (observers (out_this r') = 1%positive
     ∧ _parentObservers (out_this r') = None
     ∧ obs_id <$> toArray child_B (out_heap r') "x" = [2; 1])
  ∧ (observers (out_this c) = 1%positive
     ∧ _parentObservers (out_this c) = None
     ∧ out_result c = Normal true
     ∧ obs_id <$> toArray child_B (out_heap c) "x" = [])
  ∧ (observers (out_this a) ≠ 1%positive
     ∧ _parentObservers (out_this a) = Some 1%positive
     ∧ obs_id <$> toArray (out_this a) (out_heap a) "x" = [1; 2]
     ∧ obs_id <$> toArray child_B (out_heap a) "x" = [1]).
Proof. vm_compute. repeat split; done. Qed.

End TimelineObservers.

(** ** Timeline: emit and the error point *)

Section TimelineEmit.

Import TimelineModel Scenarios.

Implicit Types (t : Timeline) (h : Heap) (p : string) (args : list Value).

(** For the point "error" the body does not call the proxy again. *)
Lemma emit_error_eq t h e : emit t h "error" [e] = emit_error t h e.
Proof.
  unfold emit, emit_error, emit_body. simpl.
  destruct (is_empty_array _); [done|].
  by destruct (default broadcast (moments t !! "error") _ _).
Qed.

Lemma emit_error_once t h e : error_emits (emit_error t h e).1 = 1.
Proof.
  unfold emit_error, emit_body. simpl.
  destruct (is_empty_array _); [done|].
  by destruct (default broadcast (moments t !! "error") _ _).
Qed.

Lemma error_emits_skip p args hs evs :
  p ≠ "error" →
  error_emits (Emitted p args :: Dispatched p hs args :: evs) = error_emits evs.
Proof.
  intros Hp. unfold error_emits.
  rewrite filter_cons_False.
  - by rewrite filter_cons_False.
  - simpl. rewrite (bool_decide_eq_false_2 _ Hp). done.
Qed.

Lemma broadcast_nil args : broadcast [] args = Normal VUndefined.
Proof. done. Qed.

(** C6 as stated fails at the point "x" of a Timeline whose dispatch
    function for "x" raises on an empty list: nothing is registered for
    "x" (nor for "error"), and the invocation raises to the caller. *)
Lemma emit_other_point_fails :
  observersOf picky_timeline picky_heap "x" = []
  ∧ (emit picky_timeline picky_heap "x" []).2
    = Throw (Error "Unhandled Exception: Error: nobody listens").
Proof. vm_compute. done. Qed.

(** C6, amended: with no observer registered for it, the point "error"
    raises, whatever the arguments, the unhandled-error condition, whose
    message is made from the first argument as the template literal prints
    it; any other point that is not an inherited property name returns
    what its dispatch function returns for the empty list, and with the
    default broadcast dispatch it is a no-op returning [undefined]; it
    raises exactly when a dispatch function given for it raises on the
    empty list and the invocation of "error" this is re-routed to raises
    in turn, and it then raises what that invocation raises. *)
Theorem emit_without_observers t h p args :
  inherited p = false →
  observersOf t h p = [] →
  (p = "error" →
     ∃ message,
       emit t h p args
       = ([Emitted p args], Throw (Error ("Unhandled Exception: " +:+ message)))
       ∧ (printable (first_arg args) → message = toStr (first_arg args)))
  ∧ (p ≠ "error" → ∀ v, dispatch t p [] args = Normal v →
     emit t h p args = ([Emitted p args; Dispatched p [] args], Normal v))
  ∧ (p ≠ "error" → moments t !! p = None →
     emit t h p args = ([Emitted p args; Dispatched p [] args], Normal VUndefined))
  ∧ (p ≠ "error" → ∀ x,
     (emit t h p args).2 = Throw x
     ↔ moments t !! p ≠ None
       ∧ ∃ e, dispatch t p [] args = Throw e
              ∧ (emit t h "error" [e]).2 = Throw x).
Proof.
  intros _ Hobs. split; [|split; [|split]].
  - intros ->. exists (toStr (first_arg args)). split; [|done].
    unfold emit, emit_body. by rewrite Hobs.
  - intros Hp v Hv. unfold emit, emit_body, dispatch in *. rewrite Hobs. simpl.
    rewrite (bool_decide_eq_false_2 _ Hp). simpl. by rewrite Hv.
  - intros Hp Hm. unfold emit, emit_body. rewrite Hobs. simpl.
    rewrite (bool_decide_eq_false_2 _ Hp). simpl. by rewrite Hm.
  - intros Hp x. unfold dispatch.
    assert ((emit t h p args).2
            = match default broadcast (moments t !! p) [] args with
              | Normal v => Normal v
              | Throw e => (emit_error t h e).2 ≫= λ _, Normal VUndefined
              end) as ->.
    { unfold emit, emit_body. rewrite Hobs. simpl.
      rewrite (bool_decide_eq_false_2 _ Hp). simpl.
      destruct (default broadcast (moments t !! p) [] args) as [v|e]; [done|].
      rewrite (bool_decide_eq_true_2 _ Hp).
      by destruct (emit_error t h e). }
    destruct (moments t !! p) as [m|] eqn:Em; simpl.
    + destruct (m [] args) as [v|e] eqn:Er.
      * split; [done|]. by intros (_ & e & [=] & _).
      * split.
        -- intros Hx. split; [done|]. exists e. split; [done|].
           rewrite emit_error_eq. by destruct (emit_error t h e).2.
        -- intros (_ & e' & [= <-] & Hx). rewrite emit_error_eq in Hx.
           by rewrite Hx.
    + split; [done|]. by intros [? _].
Qed.

Lemma emit_without_observers_witness :
  inherited "error" = false
  ∧ observersOf picky_timeline picky_heap "error" = []
  ∧ printable (VString "boom")
  ∧ emit picky_timeline picky_heap "error" [VString "boom"]
    = ([Emitted "error" [VString "boom"]],
       Throw (Error "Unhandled Exception: boom")).
Proof.
  assert (observersOf picky_timeline picky_heap "error" = []) as H
    by (vm_compute; reflexivity).
  split; [reflexivity|]. split; [exact H|]. split; [exact I|].
  destruct (proj1 (emit_without_observers picky_timeline picky_heap "error"
                     [VString "boom"] eq_refl H) eq_refl)
    as (message & Hemit & Hmessage).
  rewrite Hemit, (Hmessage I). reflexivity.
Defined.

(** C7: when the dispatch function of a point raises [e], then for a
    point other than "error" the emit proxy is called for "error" with
    [e], once, on the same instance, and the caller gets what that call
    does; for the point "error" itself [e] is raised to the caller and the
    proxy is not called again. *)
Theorem emit_reroutes_once t h p args e :
  dispatch t p (observersOf t h p) args = Throw e →
  (p ≠ "error" →
     (emit t h p args).1
     = [Emitted p args; Dispatched p (obs_id <$> observersOf t h p) args]
       ++ (emit t h "error" [e]).1
     ∧ error_emits (emit t h p args).1 = 1
     ∧ (emit t h p args).2 = ((emit t h "error" [e]).2 ≫= λ _, Normal VUndefined))
  ∧ (p = "error" → observersOf t h p ≠ [] →
     emit t h p args
     = ([Emitted p args; Dispatched p (obs_id <$> observersOf t h p) args],
        Throw e)).
Proof.
  intros Hraise. unfold dispatch in Hraise. split.
  - intros Hp. rewrite emit_error_eq.
    unfold emit, emit_body. rewrite (bool_decide_eq_false_2 _ Hp). simpl.
    rewrite Hraise. rewrite (bool_decide_eq_true_2 _ Hp).
    pose proof (emit_error_once t h e) as Honce.
    destruct (emit_error t h e) as [evs r]. simpl in *.
    repeat split.
    change ([Emitted p args; Dispatched p (obs_id <$> observersOf t h p) args] ++ evs)
      with (Emitted p args :: Dispatched p (obs_id <$> observersOf t h p) args :: evs).
    by rewrite error_emits_skip.
  - intros -> Hobs. unfold emit, emit_body. simpl.
    destruct (observersOf t h "error") eqn:E; [done|]. simpl.
    rewrite Hraise. done.
Qed.

Lemma emit_reroutes_once_witness :
  error_emits (emit failing_timeline picky_heap "x" []).1 = 1.
Proof.
  assert (dispatch failing_timeline "x"
            (observersOf failing_timeline picky_heap "x") []
          = Throw (Error "dispatch failed")) as H
    by (vm_compute; reflexivity).
  assert ("x" ≠ "error") as Hne by (intros E; discriminate E).
  exact (proj1 (proj2 (proj1 (emit_reroutes_once failing_timeline picky_heap
                                "x" [] _ H) Hne))).
Defined.

End TimelineEmit.

(** ** The [invitations] property *)

Section InvitationsProperty.

Import InvitationsModel.

(** A body made of expression statements only returns [undefined]. *)
Lemma call_without_return (GraphRest : Type)
    (create : GraphRest → string → Value) (body : list Stmt) (g : GraphRest) :
  Forall (λ s, ∃ e, s = ExprStmt e) body →
  call GraphRest create body g = VUndefined.
Proof.
  induction 1 as [|s body [e ->] _ IH]; [done|]. exact IH.
Qed.

(** C10: whatever [this.create] builds, a read of [invitations] gives
    [undefined]: the getter's body has no [return]. *)
Theorem invitations_is_undefined (GraphRest : Type)
    (create : GraphRest → string → Value) (g : GraphRest) :
  invitations GraphRest create g = VUndefined.
Proof.
  unfold invitations, invitations_get. apply call_without_return.
  constructor; [|constructor]. by exists (ThisCreate "Invitations").
Qed.

(** With [return this.create(Invitations)] as its body, the same read
    gives the object built. *)
Lemma returning_getter_gives_object (GraphRest : Type)
    (create : GraphRest → string → Value) (g : GraphRest) :
  call GraphRest create [Return (ThisCreate "Invitations")] g
  = create g "Invitations".
Proof. reflexivity. Qed.

End InvitationsProperty.

(** ** Batch: relative addresses *)

Section RelativeUrl.

Import BatchModel.

Lemma prefix_split (needle s : string) :
  String.prefix needle s = true → ∃ post, s = needle +:+ post.
Proof.
  revert s. induction needle as [|c needle IH]; intros s H.
  - by exists s.
  - destruct s as [|c' s]; simpl in H; [done|].
    destruct (Ascii.ascii_dec c c') as [->|]; [|done].
    destruct (IH s H) as [post ->]. by exists post.
Qed.

Lemma indexOf_unfold (needle s : string) :
  indexOf needle s
  = if String.prefix needle s then Some 0
    else match s with
         | EmptyString => None
         | String _ s' => S <$> indexOf needle s'
         end.
Proof. by destruct s. Qed.

(** [indexOf] finds an occurrence: the text splits around it. *)
Lemma indexOf_split (needle s : string) (i : nat) :
  indexOf needle s = Some i →
  ∃ pre post, s = pre +:+ needle +:+ post ∧ String.length pre = i.
Proof.
  revert i. induction s as [|c s IH]; intros i; rewrite indexOf_unfold.
  - destruct (String.prefix needle "") eqn:E; [|done].
    intros [= <-]. destruct (prefix_split _ _ E) as [post ->].
    by exists "", post.
  - destruct (String.prefix needle (String c s)) eqn:E.
    + intros [= <-]. destruct (prefix_split _ _ E) as [post ->].
      by exists "", post.
    + destruct (indexOf needle s) as [j|] eqn:Ej; [|done].
      intros [= <-]. destruct (IH j eq_refl) as (pre & post & -> & <-).
      by exists (String c pre), post.
Qed.

(** ... and it is the first one. *)
Lemma indexOf_first (needle s : string) (i j : nat) :
  indexOf needle s = Some i → j < i →
  String.prefix needle (substr s j) = false.
Proof.
  revert i j. induction s as [|c s IH]; intros i j; rewrite indexOf_unfold.
  - destruct (String.prefix needle ""); [|done]. intros [= <-]. lia.
  - destruct (String.prefix needle (String c s)) eqn:E.
    + intros [= <-]. lia.
    + destruct (indexOf needle s) as [k|] eqn:Ek; [|done].
      intros [= <-] Hj. destruct j as [|j]; [done|].
      change (substr (String c s) (S j)) with (substr s j).
      apply (IH k); [done|lia].
Qed.

Lemma substr_app (pre s : string) (k : nat) :
  substr (pre +:+ s) (String.length pre + k) = substr s k.
Proof. induction pre as [|c pre IH]; simpl; [done|apply IH]. Qed.

(** An address without a version segment comes back as it is, absolute or
    not. *)
Lemma makeUrlRelative_no_version (url : string) :
  indexOf "/v1.0/" url = None → indexOf "/beta/" url = None →
  makeUrlRelative url = url.
Proof.
  intros H1 H2. unfold makeUrlRelative. rewrite H1, H2.
  by destruct (negb _).
Qed.

(** C9 as stated fails: the scheme and host of an absolute address without
    a version segment stay, and the version prefix of an address that is not
    absolute stays. *)
Lemma makeUrlRelative_keeps_host_or_version :
  isUrlAbsolute "https://graph.microsoft.com/users" = true
  ∧ makeUrlRelative "https://graph.microsoft.com/users"
    = "https://graph.microsoft.com/users"
  ∧ isUrlAbsolute "/v1.0/me" = false
  ∧ makeUrlRelative "/v1.0/me" = "/v1.0/me".
Proof. vm_compute. done. Qed.

(** C9, amended: an address that is not absolute is returned as it is; an
    absolute address loses everything up to the first "/v1.0" and keeps the
    rest from the slash on; without "/v1.0/", it loses everything up to and
    with the first "/beta/" and keeps the rest; without either it is
    returned as it is. *)
Theorem makeUrlRelative_spec (url : string) :
  (isUrlAbsolute url = false → makeUrlRelative url = url)
  ∧ (isUrlAbsolute url = true → ∀ i, indexOf "/v1.0/" url = Some i →
       ∃ pre rest, url = pre +:+ "/v1.0/" +:+ rest ∧ String.length pre = i
                   ∧ makeUrlRelative url = "/" +:+ rest)
  ∧ (isUrlAbsolute url = true → indexOf "/v1.0/" url = None →
     ∀ i, indexOf "/beta/" url = Some i →
       ∃ pre rest, url = pre +:+ "/beta/" +:+ rest ∧ String.length pre = i
                   ∧ makeUrlRelative url = rest)
  ∧ (isUrlAbsolute url = true → indexOf "/v1.0/" url = None →
     indexOf "/beta/" url = None → makeUrlRelative url = url).
Proof.
  unfold makeUrlRelative. repeat split.
  - by intros ->.
  - intros -> i Hi. rewrite Hi. simpl.
    destruct (indexOf_split _ _ _ Hi) as (pre & rest & -> & <-).
    exists pre, rest. repeat split. rewrite substr_app. reflexivity.
  - intros -> H1 i Hi. rewrite H1, Hi. simpl.
    destruct (indexOf_split _ _ _ Hi) as (pre & rest & -> & <-).
    exists pre, rest. repeat split. rewrite substr_app. reflexivity.
  - intros -> H1 H2. by rewrite H1, H2.
Qed.

Lemma makeUrlRelative_spec_witness :
  ∃ pre rest,
    "https://graph.microsoft.com/v1.0/me/messages" = pre +:+ "/v1.0/" +:+ rest
    ∧ String.length pre = 27
    ∧ makeUrlRelative "https://graph.microsoft.com/v1.0/me/messages"
      = "/" +:+ rest.
Proof.
  apply (proj1 (proj2 (makeUrlRelative_spec
                         "https://graph.microsoft.com/v1.0/me/messages")));
    reflexivity.
Defined.

End RelativeUrl.

(** ** Batch: fragment ids and the places of the results *)

Section Codec.

Import BatchModel Scenarios.

(** *** Printing and reading an id *)

Lemma to_uint_not_Nil (n : nat) : Nat.to_uint n ≠ Nil.
Proof.
  pose proof (DecimalNat.Unsigned.to_of (Nat.to_uint n)) as H.
  rewrite DecimalNat.Unsigned.of_to in H. rewrite H.
  unfold unorm. by destruct (nzhead (Nat.to_uint n)).
Qed.

Lemma string_of_nat_digits (n : nat) :
  string_of_nat n = NilEmpty.string_of_uint (Nat.to_uint n).
Proof.
  unfold string_of_nat, NilZero.string_of_uint.
  pose proof (to_uint_not_Nil n). by destruct (Nat.to_uint n).
Qed.

Lemma digits_string_of_uint (d : uint) :
  digits (NilEmpty.string_of_uint d) = NilEmpty.string_of_uint d.
Proof. induction d; simpl; [done|by f_equal..]. Qed.

Lemma uint_string_has_no_sign (d : uint) :
  d ≠ Nil →
  ∃ c s, NilEmpty.string_of_uint d = String c s ∧ is_digit c = true.
Proof. destruct d; [done|intros _; eexists _, _; split; [reflexivity|done]..]. Qed.

(** [parseInt] reads back the number a template literal printed. *)
Lemma parseInt_string_of_nat (n : nat) :
  parseInt (string_of_nat n) = Some (Z.of_nat n).
Proof.
  rewrite string_of_nat_digits.
  destruct (uint_string_has_no_sign _ (to_uint_not_Nil n)) as (c & s & Hs & Hc).
  pose proof (digits_string_of_uint (Nat.to_uint n)) as Hd.
  pose proof (NilEmpty.usu (Nat.to_uint n)) as Hu.
  rewrite Hs in Hd, Hu. rewrite Hs. unfold parseInt.
  assert (is_space c = false) as Hsp.
  { unfold is_digit, is_space in *.
    destruct (nat_of_ascii c =? 32) eqn:E1; [apply Nat.eqb_eq in E1; rewrite E1 in Hc; done|].
    simpl. apply andb_false_iff. right. apply Nat.leb_gt.
    apply andb_true_iff in Hc as [Hc _]. apply Nat.leb_le in Hc. lia. }
  assert (trimStart (String c s) = String c s) as -> by (simpl; by rewrite Hsp).
  assert (c ≠ "-"%char ∧ c ≠ "+"%char) as [Hm Hp].
  { split; intros ->; done. }
  assert (match String c s with
          | String "-" r => (true, r)
          | String "+" r => (false, r)
          | _ => (false, String c s)
          end = (false, String c s)) as ->.
  { destruct c as [[] [] [] [] [] [] [] []]; try done. }
  rewrite Hd. simpl in Hd. rewrite Hc in Hd.
  rewrite Hu. simpl. by rewrite DecimalNat.Unsigned.of_to.
Qed.

(** *** Encoding *)

Lemma formatRequest_id (index : nat) (reqInfo : RequestRecord)
    (fr : IGraphBatchRequestFragment) :
  formatRequest index reqInfo = Normal fr → frag_id fr = string_of_nat (S index).
Proof.
  unfold formatRequest. destruct (init_body (rr_init reqInfo)) as [b|].
  - destruct (JSON_parse b); simpl; [|done]. by intros [= <-].
  - by intros [= <-].
Qed.

Lemma formatRequests_from_ids (reqs : list RequestRecord) (k : nat)
    (frags : list IGraphBatchRequestFragment) :
  formatRequests_from k reqs = Normal frags →
  length frags = length reqs
  ∧ ∀ i fr, frags !! i = Some fr → frag_id fr = string_of_nat (S (k + i)).
Proof.
  revert k frags. induction reqs as [|r reqs IH]; intros k frags; simpl.
  - intros [= <-]. split; [done|]. intros i fr. by rewrite lookup_nil.
  - destruct (formatRequest k r) as [fr0|] eqn:E0; simpl; [|done].
    destruct (formatRequests_from (S k) reqs) as [frs|] eqn:E; simpl; [|done].
    intros [= <-]. destruct (IH _ _ E) as [Hlen Hids].
    split; [simpl; by rewrite Hlen|].
    intros [|i] fr; simpl.
    + intros [= <-]. rewrite Nat.add_0_r. by apply formatRequest_id with r.
    + intros Hfr. rewrite (Hids _ _ Hfr). do 2 f_equal. lia.
Qed.

Lemma formatRequests_from_well_formed (l : list RequestRecord) (k : nat)
    (b : list IGraphBatchRequestFragment) :
  formatRequests_from k l = Normal b → Forall well_formed l.
Proof.
  revert k b. induction l as [|r l IH]; intros k b; [constructor|].
  cbn [formatRequests_from].
  destruct (formatRequest k r) as [fr|e] eqn:Er; [|done].
  destruct (formatRequests_from (S k) l) as [frs|e] eqn:El; [|done].
  intros _. constructor; [|by eapply IH].
  intros text Hbody. unfold formatRequest in Er. by rewrite Hbody in Er.
Qed.

(** *** Decoding *)

Lemma place_position (arr : list Slot) (r : IGraphBatchResponseFragment) :
  place arr r
  = match position r with
    | Some i => array_set arr i (SResp (decoded r))
    | None => arr
    end.
Proof.
  unfold place, position, decoded, array_put.
  destruct (parseInt (rf_id r)) as [z|]; simpl.
  - destruct (decide (1 ≤ z)%Z), (decide (0 ≤ z - 1)%Z); try lia;
      by destruct (decide (rf_status r = 204%Z)).
  - by destruct (decide (rf_status r = 204%Z)).
Qed.

Lemma position_echo (r : IGraphBatchResponseFragment) (i : nat) :
  rf_id r = string_of_nat (S i) → position r = Some i.
Proof.
  intros Hid. unfold position. rewrite Hid, parseInt_string_of_nat.
  destruct (decide _); [f_equal|]; lia.
Qed.

Lemma array_set_in_range (arr : list Slot) (i : nat) (v : Slot) :
  i < length arr → array_set arr i v = <[i := v]> arr.
Proof. intros Hi. unfold array_set. by destruct (decide _). Qed.

Lemma place_in_range_length (arr : list Slot) r :
  (∃ i, position r = Some i ∧ i < length arr) →
  length (place arr r) = length arr.
Proof.
  intros (i & Hp & Hi). rewrite place_position, Hp, array_set_in_range by done.
  apply length_insert.
Qed.

Lemma foldl_place_length (rs : list IGraphBatchResponseFragment) (arr : list Slot) :
  in_range (length arr) rs → length (foldl place arr rs) = length arr.
Proof.
  revert arr. induction rs as [|r rs IH]; intros arr Hrs; simpl; [done|].
  inversion Hrs as [|? ? Hr Hrs']; subst.
  pose proof (place_in_range_length arr r Hr) as Hlen.
  rewrite IH; [done|]. by rewrite Hlen.
Qed.

(** A place no fragment points at keeps what it held. *)
Lemma foldl_place_other (rs : list IGraphBatchResponseFragment)
    (arr : list Slot) (i : nat) :
  in_range (length arr) rs →
  (∀ r, r ∈ rs → position r ≠ Some i) →
  foldl place arr rs !! i = arr !! i.
Proof.
  revert arr. induction rs as [|r rs IH]; intros arr Hrs Hnot; simpl; [done|].
  inversion Hrs as [|? ? Hr Hrs']; subst.
  pose proof (place_in_range_length arr r Hr) as Hlen.
  rewrite IH.
  - destruct Hr as (j & Hp & Hj).
    rewrite place_position, Hp, array_set_in_range by done.
    apply list_lookup_insert_ne. intros ->.
    apply (Hnot r); [left|done].
  - by rewrite Hlen.
  - intros r' Hr'. apply Hnot. by right.
Qed.

(** The place a fragment points at holds its Response, when no other
    fragment points there. *)
Lemma foldl_place_hit (rs : list IGraphBatchResponseFragment)
    (arr : list Slot) (r : IGraphBatchResponseFragment) (i : nat) :
  in_range (length arr) rs →
  NoDup (position <$> rs) →
  r ∈ rs → position r = Some i →
  foldl place arr rs !! i = Some (SResp (decoded r)).
Proof.
  revert arr. induction rs as [|r0 rs IH]; intros arr Hrs Hnd Hin Hp; simpl.
  - by apply elem_of_nil in Hin.
  - inversion Hrs as [|? ? Hr0 Hrs']; subst.
    pose proof (place_in_range_length arr r0 Hr0) as Hlen.
    rewrite fmap_cons in Hnd. apply NoDup_cons in Hnd as [Hfresh Hnd].
    apply elem_of_cons in Hin as [->|Hin].
    + rewrite foldl_place_other.
      * destruct Hr0 as (j & Hj & Hlt). rewrite Hp in Hj. injection Hj as <-.
        rewrite place_position, Hp, array_set_in_range by done.
        by apply list_lookup_insert_eq.
      * by rewrite Hlen.
      * intros r' Hr' Heq. apply Hfresh. rewrite Hp, <- Heq.
        by apply list_elem_of_fmap_2.
    + apply IH; try done. by rewrite Hlen.
Qed.


(** *** Round trip *)

(** A response that carries the ids of the fragments sent, each once and
    in any order, decodes to one Response per fragment, in the order of the
    fragments. *)
Lemma parseResponse_echo (frags : list IGraphBatchRequestFragment)
    (reply : IGraphBatchRequestFragment → IGraphBatchResponseFragment)
    (rs : list IGraphBatchResponseFragment) (next : option string) :
  (∀ i fr, frags !! i = Some fr → frag_id fr = string_of_nat (S i)) →
  (∀ fr, rf_id (reply fr) = frag_id fr) →
  rs ≡ₚ reply <$> frags →
  parseResponse {| gr_error := None; gr_responses := rs; gr_nextLink := next |}
  = Normal {| nextLink := next;
              responses := (λ fr, SResp (decoded (reply fr))) <$> frags |}.
Proof.
  intros Hids Hreply Hperm. unfold parseResponse. simpl. do 2 f_equal.
  assert (∀ i fr, frags !! i = Some fr → position (reply fr) = Some i) as Hpos.
  { intros i fr Hfr. apply position_echo. by rewrite Hreply, (Hids _ _ Hfr). }
  assert (length rs = length frags) as Hn
    by (rewrite Hperm; apply length_fmap).
  assert (in_range (length (replicate (length rs) SNull)) rs) as Hrange.
  { unfold in_range. rewrite length_replicate, Hperm, Forall_fmap.
    apply Forall_lookup. intros i fr Hfr. exists i. simpl.
    split; [by apply Hpos|]. rewrite Hn. by eapply lookup_lt_Some. }
  assert (NoDup (position <$> rs)) as Hnd.
  { rewrite Hperm. apply NoDup_alt. intros i j x.
    rewrite !list_lookup_fmap.
    destruct (frags !! i) as [fi|] eqn:Ei; [|done].
    destruct (frags !! j) as [fj|] eqn:Ej; [|by intros _ ?].
    simpl. rewrite (Hpos _ _ Ei), (Hpos _ _ Ej). congruence. }
  apply list_eq. intros i. rewrite list_lookup_fmap.
  destruct (frags !! i) as [fr|] eqn:Ei; simpl.
  - rewrite (foldl_place_hit rs _ (reply fr) i); try done.
    + rewrite Hperm. by apply list_elem_of_fmap_2, list_elem_of_lookup_2 with i.
    + by apply Hpos.
  - apply lookup_ge_None. rewrite foldl_place_length by done.
    rewrite length_replicate, Hn. by apply lookup_ge_None.
Qed.




End Codec.

(** ** Batch: what a flush does, in order *)

Section FlushTrace.

Import BatchModel Usage.

Variable transport : nat → list IGraphBatchRequestFragment → NetOutcome.
Variable maxRequests : nat.

Local Abbreviation step := (BatchModel.step transport maxRequests).
Local Abbreviation run := (BatchModel.run transport maxRequests).
Local Abbreviation loop := (BatchModel.loop maxRequests).
Local Abbreviation run_job := (BatchModel.run_job maxRequests).
Local Abbreviation expected := (BatchModel.expected transport).
Local Abbreviation answers := (BatchModel.answers transport).
Local Abbreviation echoes := (BatchModel.echoes transport).
Local Abbreviation accepted := (BatchModel.accepted transport).

(** *** The event loop *)

Lemma run_idle (n : nat) (st : Loop) : step st = None → run n st = st.
Proof. intros H. destruct n; simpl; [done|by rewrite H]. Qed.

Lemma run_add (n m : nat) (st : Loop) : run (n + m) st = run m (run n st).
Proof.
  revert st. induction n as [|n IH]; intros st; simpl; [done|].
  destruct (step st) as [st'|] eqn:E; [apply IH|].
  by rewrite run_idle.
Qed.

(** Once the loop is idle, more turns change nothing. *)
Lemma run_stable (n : nat) (st final : Loop) :
  run n st = final → step final = None →
  ∀ fuel, n ≤ fuel → run fuel st = final.
Proof.
  intros Hrun Hidle fuel Hle.
  replace fuel with (n + (fuel - n)) by lia.
  rewrite run_add, Hrun. by apply run_idle.
Qed.

Lemma run_step (n : nat) (st st' : Loop) :
  step st = Some st' → run (S n) st = run n st'.
Proof. intros H. simpl. by rewrite H. Qed.

(** A chain runs to its end before anything else happens. *)
Lemma chain_runs (requestsChunk : list RequestRecord)
    (elements : list (nat * Slot)) (j : option PendingCall)
    (tr : list Event) (k : nat) :
  ∃ n, run n (enqueue_then requestsChunk elements (at_rest j tr k))
       = at_rest j (tr ++ chain_events requestsChunk elements) k.
Proof.
  revert tr. induction elements as [|[index response] rest IH]; intros tr.
  - exists 0. simpl. by rewrite app_nil_r.
  - simpl. destruct (requestsChunk !! index) as [record|] eqn:E.
    + destruct (IH (tr ++ [Resolve (rr_promise record) response])) as [n Hn].
      exists (S n). rewrite <- app_assoc in Hn. simpl in Hn. rewrite <- Hn.
      apply run_step. unfold BatchModel.step; simpl.
      unfold deliver. by rewrite E.
    + exists 1. simpl. unfold BatchModel.step; simpl.
      unfold deliver. by rewrite E.
Qed.

(** *** Chunks *)

Lemma slices_fuel_enough (fuel n : nat) (l : list RequestRecord) :
  0 < n → length l ≤ fuel → slices_fuel fuel n l = slices n l.
Proof.
  intros Hn. unfold slices.
  remember (length l) as m eqn:Hm. revert fuel l Hm.
  induction (lt_wf m) as [m _ IH]. intros fuel l -> Hle.
  destruct l as [|x l]; [by destruct fuel|].
  destruct fuel as [|fuel]; [simpl in Hle; lia|].
  simpl length. cbn [slices_fuel]. f_equal.
  assert (length (drop n (x :: l)) < length (x :: l)) as Hlt
    by (rewrite length_drop; simpl; lia).
  simpl in Hle, Hlt.
  rewrite (IH _ Hlt fuel _ eq_refl) by lia.
  rewrite (IH _ Hlt (length l) _ eq_refl) by lia. done.
Qed.

Lemma slices_nil (n : nat) : slices n [] = [].
Proof. done. Qed.

Lemma slices_cons (n : nat) (l : list RequestRecord) :
  0 < n → l ≠ [] → slices n l = take n l :: slices n (drop n l).
Proof.
  intros Hn Hl. destruct l as [|x l]; [done|].
  unfold slices at 1. simpl length. cbn [slices_fuel]. f_equal.
  apply slices_fuel_enough; [done|]. rewrite length_drop. simpl. lia.
Qed.

(** *** The trace of a flush *)

Lemma log_enqueue_then requestsChunk elements (st : Loop) (evs : list Event) :
  log (enqueue_then requestsChunk elements st) evs
  = enqueue_then requestsChunk elements (log st evs).
Proof. by destruct elements. Qed.

Lemma step_at_rest_inflight (c : PendingCall) (tr : list Event) (k : nat) :
  step (at_rest (Some c) tr k)
  = Some {| microtasks :=
              [Resume (graphPost (transport k (call_request c)))
                      (call_chunk c) (call_rest c)];
            inflight := None;
            trace := tr ++ [Transmit (call_request c)];
            calls := S k |}.
Proof. done. Qed.

Lemma step_resume outcome requestsChunk workingCopy (tr : list Event) (k : nat) :
  step {| microtasks := [Resume outcome requestsChunk workingCopy];
          inflight := None; trace := tr; calls := k |}
  = Some (run_job (Resume outcome requestsChunk workingCopy) (at_rest None tr k)).
Proof. done. Qed.

Lemma loop_done requestsChunk elements (tr : list Event) (k : nat) :
  loop [] (enqueue_then requestsChunk elements (at_rest None tr k))
  = enqueue_then requestsChunk elements (at_rest None (tr ++ [FlushResolved]) k).
Proof. by destruct elements. Qed.

Lemma loop_format_fails requestsChunk elements (tr : list Event) (k : nat)
    (workingCopy : list RequestRecord) (e : Value) :
  workingCopy ≠ [] →
  formatRequests (take maxRequests workingCopy) = Throw e →
  loop workingCopy (enqueue_then requestsChunk elements (at_rest None tr k))
  = enqueue_then requestsChunk elements (at_rest None (tr ++ [FlushRejected e]) k).
Proof.
  intros Hne Hf. destruct workingCopy; [done|].
  unfold BatchModel.loop. rewrite Hf. by destruct elements.
Qed.

Lemma loop_calls requestsChunk elements (tr : list Event) (k : nat)
    (workingCopy : list RequestRecord)
    (batchRequest : list IGraphBatchRequestFragment) :
  workingCopy ≠ [] →
  formatRequests (take maxRequests workingCopy) = Normal batchRequest →
  loop workingCopy (enqueue_then requestsChunk elements (at_rest None tr k))
  = enqueue_then requestsChunk elements
      (at_rest (Some {| call_request := batchRequest;
                        call_chunk := take maxRequests workingCopy;
                        call_rest := drop maxRequests workingCopy |})
               tr k).
Proof.
  intros Hne Hf. destruct workingCopy; [done|].
  unfold BatchModel.loop. rewrite Hf. by destruct elements.
Qed.

(** When [execute] resumes with the response to a chunk and there is more
    to send, the chain for the response is queued and the next request
    waits for its task: nothing has left, and the callbacks of the chain
    are the microtasks that run before it does. *)
Lemma resume_queues_chain_before_request
    (response : ParsedGraphResponse)
    (requestsChunk workingCopy : list RequestRecord)
    (batchRequest : list IGraphBatchRequestFragment)
    (tr : list Event) (k : nat) :
  workingCopy ≠ [] →
  formatRequests (take maxRequests workingCopy) = Normal batchRequest →
  let st := run_job (Resume (Normal response) requestsChunk workingCopy)
                    (at_rest None tr k) in
  trace st = tr
  ∧ inflight st = Some {| call_request := batchRequest;
                          call_chunk := take maxRequests workingCopy;
                          call_rest := drop maxRequests workingCopy |}
  ∧ microtasks st
    = match present 0 (responses response) with
      | [] => []
      | elements => [Then requestsChunk elements]
      end.
Proof.
  intros Hne Hf. cbn [BatchModel.run_job].
  rewrite (loop_calls _ _ _ _ _ _ Hne Hf).
  by destruct (present 0 (responses response)).
Qed.

(** From the test of the loop, with the chain of the chunk before queued,
    the event loop comes to rest and has logged [expected]. *)
Lemma loop_runs (Hmax : 0 < maxRequests) (m : nat) :
  ∀ (workingCopy chunkBefore : list RequestRecord)
    (elements : list (nat * Slot)) (tr : list Event) (k : nat),
    length workingCopy ≤ m →
    ∃ n k',
      run n (loop workingCopy
               (enqueue_then chunkBefore elements (at_rest None tr k)))
      = at_rest None
          (tr ++ expected k (slices maxRequests workingCopy)
                   (chain_events chunkBefore elements)) k'.
Proof.
  assert (∀ chunkBefore elements tr k,
            ∃ n k', run n (loop [] (enqueue_then chunkBefore elements
                                      (at_rest None tr k)))
                    = at_rest None
                        (tr ++ expected k (slices maxRequests [])
                                 (chain_events chunkBefore elements)) k')
    as Hnil.
  { intros chunkBefore elements tr k. rewrite loop_done.
    destruct (chain_runs chunkBefore elements None (tr ++ [FlushResolved]) k)
      as [n Hn].
    exists n, k. rewrite Hn. by rewrite <- app_assoc. }
  induction m as [|m IH]; intros workingCopy chunkBefore elements tr k Hlen.
  { destruct workingCopy; [apply Hnil|simpl in Hlen; lia]. }
  destruct (decide (workingCopy = [])) as [->|Hne]; [apply Hnil|].
  rewrite slices_cons by done. cbn [expected].
  destruct (formatRequests (take maxRequests workingCopy))
    as [batchRequest|e] eqn:Ef.
  - (* the chunk goes out; the chain of the chunk before runs meanwhile *)
    rewrite (loop_calls _ _ _ _ _ _ Hne Ef).
    set (c := {| call_request := batchRequest;
                 call_chunk := take maxRequests workingCopy;
                 call_rest := drop maxRequests workingCopy |}).
    destruct (chain_runs chunkBefore elements (Some c) tr k) as [n1 Hn1].
    assert (length (drop maxRequests workingCopy) ≤ m) as Hshort.
    { rewrite length_drop. destruct workingCopy; [done|]. simpl in *. lia. }
    destruct (graphPost (transport k batchRequest)) as [response|e] eqn:Eg.
    + destruct (IH (drop maxRequests workingCopy)
                  (take maxRequests workingCopy)
                  (present 0 (responses response))
                  ((tr ++ chain_events chunkBefore elements)
                     ++ [Transmit batchRequest]) (S k) Hshort)
        as (n2 & k' & Hn2).
      exists (n1 + S (S n2)), k'.
      rewrite run_add, Hn1.
      rewrite (run_step _ _ _ (step_at_rest_inflight _ _ _)).
      subst c. cbn [call_request call_chunk call_rest]. rewrite Eg.
      rewrite (run_step _ _ _ (step_resume _ _ _ _ _)).
      cbn [BatchModel.run_job]. rewrite Hn2. f_equal.
      rewrite <- !app_assoc. done.
    + exists (n1 + 2), (S k).
      rewrite run_add, Hn1.
      rewrite (run_step _ _ _ (step_at_rest_inflight _ _ _)).
      subst c. cbn [call_request call_chunk call_rest]. rewrite Eg.
      rewrite (run_step _ _ _ (step_resume _ _ _ _ _)).
      cbn [BatchModel.run_job BatchModel.run]. unfold log, at_rest. simpl.
      by rewrite <- !app_assoc.
  - rewrite (loop_format_fails _ _ _ _ _ _ Hne Ef).
    destruct (chain_runs chunkBefore elements None (tr ++ [FlushRejected e]) k)
      as [n Hn].
    exists n, k. rewrite Hn. by rewrite <- app_assoc.
Qed.

(** A flush comes to rest, and its trace is [expected]. *)
Lemma flush_trace (q : BatchQueue) :
  0 < maxRequests → registered q →
  ∃ n final,
    (∀ fuel, n ≤ fuel → flush transport maxRequests fuel q = final)
    ∧ step final = None
    ∧ trace final = expected 0 (slices maxRequests (requests q)) [].
Proof.
  intros Hmax Hreg. unfold flush, execute. rewrite Hreg.
  destruct (loop_runs Hmax (length (requests q)) (requests q) [] [] [] 0)
    as (n & k' & Hn); [done|].
  exists n, (at_rest None (expected 0 (slices maxRequests (requests q)) []) k').
  split; [|done].
  apply run_stable; [|done].
  destruct (requests q) as [|r l] eqn:E; [|exact Hn].
  destruct n; [done|]. done.
Qed.

(** *** Reading a trace *)

Lemma resolved_app (a b : list Event) : resolved (a ++ b) = resolved a ++ resolved b.
Proof. apply omap_app. Qed.

Lemma rejected_app (a b : list Event) : rejected (a ++ b) = rejected a ++ rejected b.
Proof. apply omap_app. Qed.

Lemma transmitted_app (a b : list Event) :
  transmitted (a ++ b) = transmitted a ++ transmitted b.
Proof. apply omap_app. Qed.

Lemma transmitted_cons (ev : Event) (tr : list Event) :
  transmitted (ev :: tr)
  = match ev with
    | Transmit b => b :: transmitted tr
    | _ => transmitted tr
    end.
Proof. by destruct ev. Qed.

Lemma resolved_cons (ev : Event) (tr : list Event) :
  resolved (ev :: tr)
  = match ev with
    | Resolve p _ => p :: resolved tr
    | _ => resolved tr
    end.
Proof. by destruct ev. Qed.

Lemma rejected_cons (ev : Event) (tr : list Event) :
  rejected (ev :: tr)
  = match ev with
    | Reject p _ => p :: rejected tr
    | _ => rejected tr
    end.
Proof. by destruct ev. Qed.

Lemma times_not_in (p : nat) (l : list nat) : p ∉ l → times p l = 0.
Proof.
  unfold times. induction l as [|x l IH]; [done|]. intros Hp.
  apply not_elem_of_cons in Hp as [Hne Hp].
  rewrite filter_cons_False by congruence. by apply IH.
Qed.

Lemma times_NoDup (p : nat) (l : list nat) : NoDup l → times p l ≤ 1.
Proof.
  induction 1 as [|x l Hx Hnd IH]; [by compute; lia|]. unfold times in *.
  rewrite filter_cons. destruct (decide (x = p)) as [->|]; [|done].
  simpl. pose proof (times_not_in p l Hx) as H0. unfold times in H0.
  rewrite H0. lia.
Qed.

Lemma times_NoDup_in (p : nat) (l : list nat) : NoDup l → p ∈ l → times p l = 1.
Proof.
  intros Hnd Hp. pose proof (times_NoDup p l Hnd).
  destruct (times p l) eqn:E; [|lia].
  unfold times in E. apply length_zero_iff_nil in E.
  assert (p ∈ filter (λ x, x = p) l) as Hin by (by apply list_elem_of_filter).
  rewrite E in Hin. by apply elem_of_nil in Hin.
Qed.

(** *** Chains *)

Lemma chain_events_quiet requestsChunk elements :
  rejected (chain_events requestsChunk elements) = []
  ∧ transmitted (chain_events requestsChunk elements) = [].
Proof.
  induction elements as [|[index response] rest [IH1 IH2]]; [done|].
  simpl. by destruct (requestsChunk !! index).
Qed.

(** The calls of a chain follow the order of the chunk. *)
Lemma chain_events_in_order requestsChunk (arr : list Slot) (j : nat) :
  resolved (chain_events requestsChunk (present j arr))
    `sublist_of` (rr_promise <$> drop j requestsChunk).
Proof.
  revert j. induction arr as [|v arr IH]; intros j; [apply sublist_nil_l|].
  assert (resolved (chain_events requestsChunk (present (S j) arr))
            `sublist_of` (rr_promise <$> drop j requestsChunk)) as Hskip.
  { destruct (requestsChunk !! j) as [record|] eqn:E.
    - rewrite (drop_S _ _ _ E). cbn. apply sublist_cons, IH.
    - apply lookup_ge_None in E. specialize (IH (S j)).
      rewrite drop_ge in IH by lia. by rewrite drop_ge by lia. }
  destruct v; [|exact Hskip|].
  all: cbn [present chain_events];
    destruct (requestsChunk !! j) as [record|] eqn:E; [|apply sublist_nil_l];
    rewrite (drop_S _ _ _ E); cbn; apply sublist_skip, IH.
Qed.

(** When the array has an element for every record of the chunk and no
    hole, every record of the chunk gets its call. *)
Lemma chain_events_full requestsChunk (arr : list Slot) (j : nat) :
  Forall (λ v, v ≠ SHole) arr →
  length arr = length (drop j requestsChunk) →
  resolved (chain_events requestsChunk (present j arr))
  = rr_promise <$> drop j requestsChunk.
Proof.
  revert j. induction arr as [|v arr IH]; intros j Hfull Hlen.
  - simpl in Hlen. symmetry in Hlen. apply length_zero_iff_nil in Hlen.
    by rewrite Hlen.
  - inversion Hfull as [|? ? Hv Hfull']; subst.
    destruct (requestsChunk !! j) as [record|] eqn:E.
    2:{ apply lookup_ge_None in E. rewrite length_drop in Hlen.
        simpl in Hlen. lia. }
    rewrite (drop_S _ _ _ E) in *. simpl in Hlen.
    destruct v; [|done|]; cbn [present chain_events]; rewrite E; cbn;
      f_equal; apply IH; try done; lia.
Qed.

(** *** Facts about the chunks *)

Lemma slices_ind (n : nat) (P : list RequestRecord → list (list RequestRecord) → Prop) :
  0 < n →
  P [] [] →
  (∀ l, l ≠ [] → P (drop n l) (slices n (drop n l)) →
        P l (take n l :: slices n (drop n l))) →
  ∀ l, P l (slices n l).
Proof.
  intros Hn Hnil Hcons l.
  remember (length l) as m eqn:Hm. revert l Hm.
  induction (lt_wf m) as [m _ IH]. intros l ->.
  destruct (decide (l = [])) as [->|Hne]; [done|].
  rewrite slices_cons by done. apply Hcons; [done|].
  apply (IH (length (drop n l))); [|done].
  rewrite length_drop. destruct l; [done|]. simpl. lia.
Qed.

Lemma elem_of_concat (chunks : list (list RequestRecord))
    (c : list RequestRecord) (r : RequestRecord) :
  c ∈ chunks → r ∈ c → r ∈ concat chunks.
Proof.
  intros Hc Hr. induction chunks as [|c' chunks IH]; [by apply elem_of_nil in Hc|].
  simpl. apply elem_of_app. apply elem_of_cons in Hc as [->|Hc]; [by left|].
  right. by apply IH.
Qed.

Lemma concat_slices (n : nat) (l : list RequestRecord) :
  0 < n → concat (slices n l) = l.
Proof.
  intros Hn. apply (slices_ind n (λ l ch, concat ch = l)); [done|done|].
  intros l' _ IH. simpl. rewrite IH. apply take_drop.
Qed.

Lemma slices_Forall (n : nat) (P : RequestRecord → Prop) (l : list RequestRecord) :
  0 < n → Forall P l → Forall (Forall P) (slices n l).
Proof.
  intros Hn. apply (slices_ind n (λ l ch, Forall P l → Forall (Forall P) ch));
    [done|by constructor|].
  intros l' _ IH Hl. constructor; [by apply Forall_take|].
  by apply IH, Forall_drop.
Qed.

Lemma slices_lookup (n : nat) (l : list RequestRecord) (i : nat) :
  0 < n → i * n < length l →
  slices n l !! i = Some (take n (drop (i * n) l)).
Proof.
  intros Hn. revert l. induction i as [|i IH]; intros l Hi.
  - rewrite slices_cons; [done..|]. destruct l; [simpl in Hi; lia|done].
  - rewrite slices_cons; [|done|destruct l; [simpl in Hi; lia|done]].
    simpl in *. rewrite IH by (rewrite length_drop; lia).
    by rewrite drop_drop.
Qed.

Lemma slices_length (n : nat) (l : list RequestRecord) :
  0 < n → length (slices n l) = (length l + n - 1) / n.
Proof.
  intros Hn.
  apply (slices_ind n (λ l ch, length ch = (length l + n - 1) / n)); [done| |].
  - simpl. symmetry. apply Nat.div_small. lia.
  - intros l' Hne IH. simpl. rewrite IH, length_drop.
    assert (0 < length l') as Hpos by (destruct l'; [done|simpl; lia]).
    destruct (decide (length l' ≤ n)) as [Hle|Hgt].
    + replace (length l' - n + n - 1) with (n - 1) by lia.
      rewrite Nat.div_small by lia.
      apply (Nat.div_unique _ _ 1 (length l' - 1)); lia.
    + replace (length l' + n - 1) with ((length l' - n + n - 1) + 1 * n) by lia.
      rewrite Nat.div_add by lia. lia.
Qed.

(** *** Facts about the trace *)

Lemma expected_no_reject (chunks : list (list RequestRecord)) (k : nat)
    (pending : list Event) :
  rejected (expected k chunks pending) = rejected pending.
Proof.
  revert k pending. induction chunks as [|c chunks IH]; intros k pending; [done|].
  cbn [expected]. destruct (formatRequests c) as [b|e]; [|done].
  rewrite rejected_app, rejected_cons.
  destruct (graphPost (transport k b)) as [r|e]; [|cbn; by rewrite app_nil_r].
  rewrite IH. rewrite (proj1 (chain_events_quiet _ _)). by rewrite app_nil_r.
Qed.

(** The calls of [resolve] follow the order of the chunks, and within a
    chunk the order of the chunk. *)
Lemma expected_in_order (chunks : list (list RequestRecord)) (k : nat)
    (pending : list Event) :
  ∃ l, resolved (expected k chunks pending) = resolved pending ++ l
       ∧ l `sublist_of` (rr_promise <$> concat chunks).
Proof.
  revert k pending. induction chunks as [|c chunks IH]; intros k pending.
  - exists []. split; [by rewrite app_nil_r|done].
  - cbn [expected]. destruct (formatRequests c) as [b|e].
    2:{ exists []. split; [by rewrite app_nil_r|apply sublist_nil_l]. }
    rewrite resolved_app, resolved_cons.
    destruct (graphPost (transport k b)) as [r|e].
    2:{ exists []. split; [done|apply sublist_nil_l]. }
    destruct (IH (S k) (chain_events c (present 0 (responses r))))
      as (l & -> & Hl).
    exists (resolved (chain_events c (present 0 (responses r))) ++ l).
    split; [done|]. cbn [concat]. rewrite fmap_app. apply sublist_app; [|done].
    apply (chain_events_in_order c (responses r) 0).
Qed.

(** *** Well-behaved inputs *)

Lemma formatRequests_total (l : list RequestRecord) (k : nat) :
  Forall well_formed l → ∃ b, formatRequests_from k l = Normal b.
Proof.
  revert k. induction l as [|r l IH]; intros k Hl; [by exists []|].
  inversion Hl as [|? ? Hr Hl']; subst.
  destruct (IH (S k) Hl') as [b Hb]. cbn [formatRequests_from].
  rewrite Hb. unfold formatRequest, well_formed in *.
  destruct (init_body (rr_init r)) as [[j|text]|]; [..|by eexists].
  - by eexists.
  - by destruct (Hr text).
Qed.

Lemma echoes_decoded (Hecho : echoes) (k : nat) (c : list RequestRecord)
    (b : list IGraphBatchRequestFragment) :
  formatRequests c = Normal b →
  ∃ response, graphPost (transport k b) = Normal response
              ∧ Forall (λ v, v ≠ SHole) (responses response)
              ∧ length (responses response) = length c.
Proof.
  intros Hb. destruct (formatRequests_from_ids _ _ _ Hb) as [Hlen Hids].
  destruct (Hecho k b) as (reply & rs & next & Ht & Hreply & Hperm).
  rewrite Ht. cbn [graphPost BatchParse gr_error].
  rewrite (parseResponse_echo b reply rs next Hids Hreply Hperm).
  eexists. split; [done|]. cbn [responses]. split.
  - apply Forall_fmap, Forall_forall. by intros fr _.
  - by rewrite length_fmap.
Qed.

Lemma echoes_answers : echoes → answers.
Proof.
  intros Hecho k b. destruct (Hecho k b) as (reply & rs & next & Ht & _).
  rewrite Ht. cbn [graphPost BatchParse gr_error]. unfold parseResponse.
  cbn [gr_error]. by eexists.
Qed.

(** With such inputs every record gets its call, in the order of the
    chunks. *)
Lemma expected_all_resolved (chunks : list (list RequestRecord)) (k : nat)
    (pending : list Event) :
  echoes → Forall (Forall well_formed) chunks →
  resolved (expected k chunks pending)
  = resolved pending ++ (rr_promise <$> concat chunks).
Proof.
  intros Hecho. revert k pending.
  induction chunks as [|c chunks IH]; intros k pending Hwf.
  - cbn [expected concat]. rewrite resolved_cons. by rewrite app_nil_r.
  - inversion Hwf as [|? ? Hc Hwf']; subst.
    destruct (formatRequests_total c 0 Hc) as [b Hb].
    change (formatRequests_from 0 c) with (formatRequests c) in Hb.
    cbn [expected]. rewrite Hb.
    destruct (echoes_decoded Hecho k c b Hb) as (r & Hr & Hfull & Hlen).
    rewrite Hr. rewrite resolved_app, resolved_cons, (IH _ _ Hwf'). cbn [concat].
    rewrite (chain_events_full c (responses r) 0 Hfull) by done.
    by rewrite fmap_app, drop_0.
Qed.

(** ... and every chunk is handed to the transport. *)
Lemma expected_transmits_all (chunks : list (list RequestRecord)) (k : nat)
    (pending : list Event) :
  answers → Forall (Forall well_formed) chunks → transmitted pending = [] →
  Forall2 (λ b c, formatRequests c = Normal b)
          (transmitted (expected k chunks pending)) chunks.
Proof.
  intros Hans. revert k pending.
  induction chunks as [|c chunks IH]; intros k pending Hwf Hpending.
  - cbn [expected]. rewrite transmitted_cons, Hpending. constructor.
  - inversion Hwf as [|? ? Hc Hwf']; subst.
    destruct (formatRequests_total c 0 Hc) as [b Hb].
    change (formatRequests_from 0 c) with (formatRequests c) in Hb.
    cbn [expected]. rewrite Hb.
    destruct (Hans k b) as [r Hr]. rewrite Hr.
    rewrite transmitted_app, transmitted_cons, Hpending, app_nil_l.
    constructor; [done|]. apply IH; [done|].
    apply chain_events_quiet.
Qed.

(** A call that fails ends the flush: the records of the chunks from that
    one on get no call. *)
Lemma expected_stops_at_failure (chunks : list (list RequestRecord)) (k : nat)
    (pending : list Event) (j : nat) (b : list IGraphBatchRequestFragment)
    (e : Value) :
  transmitted pending = [] →
  transmitted (expected k chunks pending) !! j = Some b →
  graphPost (transport (k + j) b) = Throw e →
  last (expected k chunks pending) = Some (FlushRejected e)
  ∧ ∃ l, resolved (expected k chunks pending) = resolved pending ++ l
         ∧ l `sublist_of` (rr_promise <$> concat (take j chunks)).
Proof.
  revert k pending j. induction chunks as [|c chunks IH];
    intros k pending j Hpending.
  - cbn [expected]. rewrite transmitted_cons. by rewrite Hpending.
  - cbn [expected]. destruct (formatRequests c) as [b0|e0].
    2:{ rewrite transmitted_cons. by rewrite Hpending. }
    rewrite transmitted_app, transmitted_cons, Hpending, app_nil_l.
    rewrite resolved_app, resolved_cons.
    destruct j as [|j].
    + intros [= <-]. rewrite Nat.add_0_r. intros ->. split.
      * change (pending ++ [Transmit b0; FlushRejected e])
          with (pending ++ [Transmit b0] ++ [FlushRejected e]).
        rewrite app_assoc. apply last_snoc.
      * exists []. split; [done|apply sublist_nil_l].
    + destruct (graphPost (transport k b0)) as [r|e0]; [|done].
      cbn [lookup list_lookup]. intros Hj Hfail.
      rewrite <- Nat.add_succ_comm in Hfail.
      destruct (IH (S k) (chain_events c (present 0 (responses r))) j
                  (proj2 (chain_events_quiet _ _)) Hj Hfail)
        as (Hlast & l & Hl & Hsub).
      split.
      * rewrite last_app, last_cons, Hlast. done.
      * exists (resolved (chain_events c (present 0 (responses r))) ++ l).
        rewrite Hl. split; [done|].
        cbn [take concat]. rewrite fmap_app. apply sublist_app; [|done].
        apply (chain_events_in_order c (responses r) 0).
Qed.

(** The state a flush comes to rest in is the one any long enough run
    reaches. *)
Lemma flush_final_unique (q : BatchQueue) (n m : nat) (final s : Loop) :
  (∀ fuel, n ≤ fuel → flush transport maxRequests fuel q = final) →
  flush transport maxRequests m q = s → step s = None →
  final = s.
Proof.
  intros Hrun Hm Hidle. rewrite <- (Hrun (m + n)) by lia.
  unfold flush in *. by apply (run_stable m); [| |lia].
Qed.

Lemma flush_transmits_chunks (q : BatchQueue) :
  0 < maxRequests → registered q → Forall well_formed (requests q) → answers →
  ∃ n final,
    (∀ fuel, n ≤ fuel → flush transport maxRequests fuel q = final)
    ∧ step final = None
    ∧ Forall2 (λ b c, formatRequests c = Normal b)
              (transmitted (trace final)) (slices maxRequests (requests q)).
Proof.
  intros Hmax Hreg Hwf Hans.
  destruct (flush_trace q Hmax Hreg) as (n & final & Hrun & Hidle & Htrace).
  exists n, final. split; [done|]. split; [done|]. rewrite Htrace.
  apply expected_transmits_all; [done| |done]. by apply slices_Forall.
Qed.

(** *** More ways to read a trace *)

Lemma settlements_app (a b : list Event) :
  settlements (a ++ b) = settlements a ++ settlements b.
Proof. apply omap_app. Qed.

Lemma settlements_cons (ev : Event) (tr : list Event) :
  settlements (ev :: tr)
  = match ev with
    | FlushResolved => None :: settlements tr
    | FlushRejected e => Some e :: settlements tr
    | _ => settlements tr
    end.
Proof. by destruct ev. Qed.

Lemma resolutions_app (a b : list Event) :
  resolutions (a ++ b) = resolutions a ++ resolutions b.
Proof. apply omap_app. Qed.

Lemma elem_of_resolutions (tr : list Event) (p : nat) (v : Slot) :
  (p, v) ∈ resolutions tr ↔ Resolve p v ∈ tr.
Proof.
  unfold resolutions. rewrite list_elem_of_omap. split.
  - intros (ev & Hev & Heq). destruct ev; try done. by injection Heq as -> ->.
  - intros Hev. by exists (Resolve p v).
Qed.

Lemma resolved_resolutions (tr : list Event) : resolved tr = (resolutions tr).*1.
Proof.
  induction tr as [|ev tr IH]; [done|].
  destruct ev; cbn; try done. by f_equal.
Qed.

Lemma chain_events_no_settlement requestsChunk elements :
  settlements (chain_events requestsChunk elements) = [].
Proof.
  induction elements as [|[index response] rest IH]; [done|].
  simpl. by destruct (requestsChunk !! index).
Qed.

Lemma slices_lookup_Some (n : nat) (l : list RequestRecord) (i : nat)
    (c : list RequestRecord) :
  0 < n → slices n l !! i = Some c →
  i * n < length l ∧ c = take n (drop (i * n) l).
Proof.
  intros Hn Hc.
  assert (i * n < length l) as Hi.
  { apply lookup_lt_Some in Hc. rewrite slices_length in Hc by done.
    pose proof (Nat.Div0.mul_div_le (length l + n - 1) n). nia. }
  split; [done|]. rewrite slices_lookup in Hc by done. by injection Hc.
Qed.

Lemma concat_take_slices (n : nat) (l : list RequestRecord) (j : nat) :
  0 < n → concat (take j (slices n l)) = take (j * n) l.
Proof.
  intros Hn. revert l. induction j as [|j IH]; intros l; [done|].
  destruct (decide (l = [])) as [->|Hne]; [by rewrite slices_nil, !take_nil|].
  rewrite slices_cons by done. cbn [take concat]. rewrite IH.
  by rewrite take_take_drop.
Qed.


Lemma expected_settles_once (chunks : list (list RequestRecord)) (k : nat)
    (pending : list Event) :
  settlements pending = [] →
  ∃ o, settlements (expected k chunks pending) = [o].
Proof.
  revert k pending. induction chunks as [|c chunks IH]; intros k pending Hp;
    cbn [BatchModel.expected].
  - exists None. by rewrite settlements_cons, Hp.
  - destruct (formatRequests c) as [b|e].
    2:{ exists (Some e). by rewrite settlements_cons, Hp. }
    rewrite settlements_app, settlements_cons, Hp, app_nil_l.
    destruct (graphPost (transport k b)) as [r|e]; [|by exists (Some e)].
    apply IH, chain_events_no_settlement.
Qed.

(** *** A run only adds to the trace *)

Lemma trace_enqueue_then requestsChunk elements (st : Loop) :
  trace (enqueue_then requestsChunk elements st) = trace st.
Proof. by destruct elements. Qed.

Lemma loop_extends (workingCopy : list RequestRecord) (st : Loop) :
  ∃ evs, trace (loop workingCopy st) = trace st ++ evs.
Proof.
  unfold BatchModel.loop. destruct workingCopy as [|r l]; [by eexists|].
  destruct (formatRequests (take maxRequests (r :: l))); [|by eexists].
  exists []. by rewrite app_nil_r.
Qed.

Lemma step_extends (st st' : Loop) :
  step st = Some st' → ∃ evs, trace st' = trace st ++ evs.
Proof.
  unfold BatchModel.step. destruct (microtasks st) as [|j jobs].
  - destruct (inflight st) as [c|]; [|done]. intros [= <-]. by eexists.
  - intros [= <-].
    destruct j as [[response|e] chunk rest|chunk [|[index v] els]];
      cbn [BatchModel.run_job].
    + destruct (loop_extends rest
                  (enqueue_then chunk (present 0 (responses response))
                     {| microtasks := jobs; inflight := inflight st;
                        trace := trace st; calls := calls st |}))
        as [evs ->].
      rewrite trace_enqueue_then. by eexists.
    + by eexists.
    + exists []. by rewrite app_nil_r.
    + unfold deliver. destruct (chunk !! index); cbn.
      * rewrite trace_enqueue_then. by eexists.
      * by eexists.
Qed.

Lemma run_extends (n : nat) (st : Loop) :
  ∃ evs, trace (run n st) = trace st ++ evs.
Proof.
  revert st. induction n as [|n IH]; intros st.
  { exists []. by rewrite app_nil_r. }
  simpl. destruct (step st) as [st'|] eqn:E.
  - destruct (step_extends _ _ E) as [e1 H1]. destruct (IH st') as [e2 H2].
    exists (e1 ++ e2). by rewrite H2, H1, app_assoc.
  - exists []. by rewrite app_nil_r.
Qed.

(** *** A chunk size of zero resolves nothing *)

Lemma empty_chunks_step (st st' : Loop) :
  maxRequests = 0 → empty_chunks st → step st = Some st' → empty_chunks st'.
Proof.
  intros Hzero (Hjobs & Hcall & Hres & Hrej). unfold BatchModel.step.
  destruct (microtasks st) as [|j jobs] eqn:Ej.
  - destruct (inflight st) as [c|] eqn:Ec; [|done]. intros [= <-].
    unfold empty_chunks. cbn [microtasks inflight trace].
    rewrite resolved_app, rejected_app, Hres, Hrej.
    split; [|done]. constructor; [by apply Hcall|constructor].
  - apply Forall_cons in Hjobs as [Hj Hjobs']. intros [= <-].
    destruct j as [[response|e] chunk rest|chunk [|[index v] els]];
      cbn [BatchModel.run_job]; subst chunk.
    + set (st0 := enqueue_then [] (present 0 (responses response))
                    {| microtasks := jobs; inflight := inflight st;
                       trace := trace st; calls := calls st |}).
      assert (Forall (λ j, match j with
                           | Resume _ c _ => c = []
                           | Then c _ => c = []
                           end) (microtasks st0)) as Hq.
      { subst st0. destruct (present 0 (responses response)); [done|].
        cbn. apply Forall_app. split; [done|]. by constructor. }
      assert (trace st0 = trace st) as Ht
        by (subst st0; by rewrite trace_enqueue_then).
      assert (inflight st0 = inflight st) as Hi
        by (subst st0; by destruct (present 0 (responses response))).
      unfold BatchModel.loop. destruct rest as [|r l].
      * unfold empty_chunks, log. cbn [microtasks inflight trace].
        by rewrite Ht, Hi, resolved_app, rejected_app, Hres, Hrej.
      * rewrite Hzero, take_0, drop_0.
        change (formatRequests []) with (Normal (@nil IGraphBatchRequestFragment)).
        unfold empty_chunks. cbn [microtasks inflight trace]. rewrite Ht.
        split; [done|]. split; [by intros c [= <-]|done].
    + unfold empty_chunks, log. cbn [microtasks inflight trace].
      by rewrite resolved_app, rejected_app, Hres, Hrej.
    + done.
    + unfold deliver. rewrite lookup_nil.
      unfold empty_chunks, log. cbn [microtasks inflight trace].
      by rewrite resolved_app, rejected_app, Hres, Hrej.
Qed.

Lemma empty_chunks_run (n : nat) (st : Loop) :
  maxRequests = 0 → empty_chunks st → empty_chunks (run n st).
Proof.
  intros Hzero. revert st. induction n as [|n IH]; intros st Hst; [done|].
  simpl. destruct (step st) as [st'|] eqn:E; [|done].
  by apply IH, (empty_chunks_step st).
Qed.

Lemma empty_chunks_execute (q : BatchQueue) :
  maxRequests = 0 → empty_chunks (execute maxRequests q).
Proof.
  intros Hzero. unfold execute.
  destruct (forallb id (registrationPromises q)); [|by repeat split].
  destruct (requests q) as [|r l]; [by repeat split|].
  unfold BatchModel.loop. rewrite Hzero, take_0, drop_0.
  change (formatRequests []) with (Normal (@nil IGraphBatchRequestFragment)).
  split; [done|]. split; [by intros c [= <-]|done].
Qed.

(** Whatever the chunk size, and however long the flush has run: either
    no resolver or rejecter has been called, or the trace is the beginning
    of [expected]. *)
Lemma flush_any_fuel (q : BatchQueue) (fuel : nat) :
  let tr := trace (flush transport maxRequests fuel q) in
  (resolved tr = [] ∧ rejected tr = [])
  ∨ (0 < maxRequests
     ∧ ∃ evs, expected 0 (slices maxRequests (requests q)) [] = tr ++ evs).
Proof.
  cbv zeta. destruct (decide (maxRequests = 0)) as [Hzero|Hpos].
  { left. unfold flush.
    by destruct (empty_chunks_run fuel _ Hzero (empty_chunks_execute q Hzero))
      as (_ & _ & ? & ?). }
  destruct (forallb id (registrationPromises q)) eqn:Hreg.
  - right. split; [lia|].
    destruct (flush_trace q ltac:(lia) Hreg) as (n & final & Hrun & _ & <-).
    rewrite <- (Hrun (fuel + n)) by lia. unfold flush. rewrite run_add.
    apply run_extends.
  - left. unfold flush, execute. rewrite Hreg. by rewrite run_idle.
Qed.

Lemma times_app (p : nat) (a b : list nat) :
  times p (a ++ b) = times p a + times p b.
Proof. unfold times. by rewrite filter_app, length_app. Qed.

(** *** Who is resolved *)

Lemma chain_events_resolve_inv requestsChunk (arr : list Slot) (j : nat)
    (p : nat) (v : Slot) :
  Resolve p v ∈ chain_events requestsChunk (present j arr) →
  ∃ i r, requestsChunk !! (j + i) = Some r ∧ rr_promise r = p
         ∧ arr !! i = Some v ∧ v ≠ SHole.
Proof.
  revert j. induction arr as [|v0 arr IH]; intros j Hin;
    [by apply elem_of_nil in Hin|].
  assert (Resolve p v ∈ chain_events requestsChunk (present (S j) arr) →
          ∃ i r, requestsChunk !! (j + i) = Some r ∧ rr_promise r = p
                 ∧ (v0 :: arr) !! i = Some v ∧ v ≠ SHole) as Hrest.
  { intros Hin'. destruct (IH _ Hin') as (i & r & Hc & Hp & Ha & Hv).
    exists (S i), r. by rewrite <- Nat.add_succ_comm. }
  destruct v0; cbn [present chain_events] in Hin; [|by apply Hrest|].
  all: destruct (requestsChunk !! j) as [r0|] eqn:E;
    [|by apply list_elem_of_singleton in Hin].
  all: apply elem_of_cons in Hin as [[= -> ->]|Hin]; [|by apply Hrest].
  all: exists 0, r0; by rewrite Nat.add_0_r.
Qed.

(** A resolver is called only for a record of a chunk that was sent and
    answered, with the element the decoded array holds at the index of the
    record in its chunk. *)
Lemma expected_resolve_inv (chunks : list (list RequestRecord)) (k : nat)
    (pending : list Event) (p : nat) (v : Slot) :
  Resolve p v ∈ expected k chunks pending →
  Resolve p v ∈ pending
  ∨ ∃ j c b response i r,
      chunks !! j = Some c ∧ formatRequests c = Normal b
      ∧ graphPost (transport (k + j) b) = Normal response
      ∧ c !! i = Some r ∧ rr_promise r = p
      ∧ responses response !! i = Some v ∧ v ≠ SHole.
Proof.
  revert k pending. induction chunks as [|c chunks IH]; intros k pending;
    cbn [BatchModel.expected].
  { intros [[=]|Hin]%elem_of_cons. by left. }
  destruct (formatRequests c) as [b|e] eqn:Ef.
  2:{ intros [[=]|Hin]%elem_of_cons. by left. }
  intros [Hin|[[=]|Hin]%elem_of_cons]%elem_of_app; [by left|].
  destruct (graphPost (transport k b)) as [response|e] eqn:Eg;
    [|by apply list_elem_of_singleton in Hin].
  right. destruct (IH _ _ Hin) as [Hchain|Hlater].
  - destruct (chain_events_resolve_inv c (responses response) 0 p v Hchain)
      as (i & r & Hc & Hp & Ha & Hv).
    exists 0, c, b, response, i, r. by rewrite Nat.add_0_r.
  - destruct Hlater as (j & c' & b' & response' & i & r & Hc & Hb & Hg & Hr).
    exists (S j), c', b', response', i, r.
    by rewrite <- Nat.add_succ_comm.
Qed.

(** *** A call that fails *)

Lemma settlements_last (tr : list Event) (o : option Value) (e : Value) :
  settlements tr = [o] → last tr = Some (FlushRejected e) → o = Some e.
Proof.
  intros Hs [tr' ->]%last_Some. rewrite settlements_app in Hs. cbn in Hs.
  destruct (settlements tr') as [|x l]; [by injection Hs|].
  injection Hs as _ Hs. by destruct l.
Qed.

Lemma expected_failure_is_last_sent (chunks : list (list RequestRecord))
    (k : nat) (pending : list Event) (j : nat)
    (b : list IGraphBatchRequestFragment) (e : Value) :
  transmitted pending = [] →
  transmitted (expected k chunks pending) !! j = Some b →
  graphPost (transport (k + j) b) = Throw e →
  length (transmitted (expected k chunks pending)) = S j.
Proof.
  revert k pending j. induction chunks as [|c chunks IH];
    intros k pending j Hpending; cbn [BatchModel.expected].
  - rewrite transmitted_cons. by rewrite Hpending.
  - destruct (formatRequests c) as [b0|e0].
    2:{ rewrite transmitted_cons. by rewrite Hpending. }
    rewrite transmitted_app, transmitted_cons, Hpending, app_nil_l.
    destruct j as [|j].
    + intros [= <-]. rewrite Nat.add_0_r. by intros ->.
    + destruct (graphPost (transport k b0)) as [r|e0]; [|done].
      cbn [lookup list_lookup]. intros Hj Hfail.
      rewrite <- Nat.add_succ_comm in Hfail. cbn [length]. f_equal.
      by apply (IH (S k) _ j (proj2 (chain_events_quiet _ _)) Hj).
Qed.

(** *** Chunks that all go through *)

Lemma expected_transmits_every (chunks : list (list RequestRecord)) (k : nat)
    (pending : list Event) :
  (∀ j c, chunks !! j = Some c →
     ∃ b response, formatRequests c = Normal b
                   ∧ graphPost (transport (k + j) b) = Normal response) →
  transmitted pending = [] →
  Forall2 (λ b c, formatRequests c = Normal b)
          (transmitted (expected k chunks pending)) chunks.
Proof.
  revert k pending. induction chunks as [|c chunks IH]; intros k pending Hall Hp;
    cbn [BatchModel.expected].
  - rewrite transmitted_cons, Hp. constructor.
  - destruct (Hall 0 c eq_refl) as (b & response & Hb & Hg).
    rewrite Nat.add_0_r in Hg. rewrite Hb, Hg.
    rewrite transmitted_app, transmitted_cons, Hp, app_nil_l.
    constructor; [done|]. apply IH; [|apply chain_events_quiet].
    intros j c' Hc'. rewrite Nat.add_succ_comm. by apply (Hall (S j)).
Qed.

(** *** Deliveries and transmissions *)



Lemma expected_transmits_prefix (chunks : list (list RequestRecord))
    (k : nat) (pending : list Event) :
  transmitted pending = [] →
  ∃ m, Forall2 (λ b c, formatRequests c = Normal b)
               (transmitted (expected k chunks pending)) (take m chunks).
Proof.
  revert k pending. induction chunks as [|c chunks IH]; intros k pending Ht;
    cbn [BatchModel.expected].
  - exists 0. rewrite transmitted_cons, Ht. constructor.
  - destruct (formatRequests c) as [b|e] eqn:Ef.
    2:{ exists 0. rewrite transmitted_cons, Ht. constructor. }
    rewrite transmitted_app, transmitted_cons, Ht, app_nil_l.
    destruct (graphPost (transport k b)) as [r|e].
    + destruct (IH (S k) (chain_events c (present 0 (responses r)))
                  (proj2 (chain_events_quiet _ _))) as [m Hm].
      exists (S m). by constructor.
    + exists 1. cbn. constructor; [done|]. rewrite take_0. constructor.
Qed.

(** *** The claims about a flush *)

(** C2, amended: for every operation registered before the flush, the
    flush never calls its rejecter and calls its resolver at most once,
    whatever the chunk size, the network and the moment.  With a positive
    chunk size and every registration done, the flush comes to rest, and
    then: (a) every resolver has been called exactly once when encoding
    returns for every chunk and every aggregate call comes back, without
    top-level error, with one fragment the [Response] constructor accepts
    for each id sent; (b) when the aggregate call of a chunk fails (the
    transport raises, or the response carries a top-level error), the
    flush fails with that error and no operation of that chunk or of a
    later one is ever settled; (c) an operation is resolved only if its
    chunk was encoded, its aggregate call came back and the decoded array
    holds an element at the index of the operation in its chunk, and it
    is resolved with that element: an operation whose index has no
    element, as when the response has too few fragments, is never
    settled. *)
Theorem flush_settles_at_most_once (q : BatchQueue) :
  NoDup (rr_promise <$> requests q) →
  (∀ fuel r, r ∈ requests q →
     times (rr_promise r)
           (resolved (trace (flush transport maxRequests fuel q))) ≤ 1
     ∧ times (rr_promise r)
             (rejected (trace (flush transport maxRequests fuel q))) = 0)
  ∧ (0 < maxRequests → registered q →
     ∃ n final,
       (∀ fuel, n ≤ fuel → flush transport maxRequests fuel q = final)
       ∧ step final = None
       ∧ (echoes → accepted →
          (∀ c, c ∈ slices maxRequests (requests q) →
                ∃ b, formatRequests c = Normal b) →
          ∀ r, r ∈ requests q →
            times (rr_promise r) (resolved (trace final)) = 1)
       ∧ (∀ j b e,
            transmitted (trace final) !! j = Some b →
            graphPost (transport j b) = Throw e →
            settlements (trace final) = [Some e]
            ∧ ∀ i r, j * maxRequests ≤ i → requests q !! i = Some r →
                     rr_promise r ∉ resolved (trace final))
       ∧ (∀ j i r,
            requests q !! (j * maxRequests + i) = Some r → i < maxRequests →
            rr_promise r ∈ resolved (trace final) →
            ∃ b response v,
              formatRequests
                (take maxRequests (drop (j * maxRequests) (requests q)))
              = Normal b
              ∧ graphPost (transport j b) = Normal response
              ∧ responses response !! i = Some v ∧ v ≠ SHole
              ∧ (rr_promise r, v) ∈ resolutions (trace final))).
Proof.
  intros Hnd. split.
  { intros fuel r Hr.
    destruct (flush_any_fuel q fuel) as [[-> ->]|(Hmax & evs & Hexp)];
      [split; [cbn; lia|done]|].
    destruct (expected_in_order (slices maxRequests (requests q)) 0 [])
      as (l & Hres & Hl).
    rewrite concat_slices in Hl by done.
    pose proof (expected_no_reject (slices maxRequests (requests q)) 0 [])
      as Hrej.
    rewrite Hexp, resolved_app in Hres. rewrite Hexp, rejected_app in Hrej.
    apply app_eq_nil in Hrej as [-> _]. split; [|done].
    assert (NoDup l) as Hndl by (by eapply sublist_NoDup).
    pose proof (times_NoDup (rr_promise r) l Hndl) as Hle.
    cbn in Hres. rewrite <- Hres, times_app in Hle. lia. }
  intros Hmax Hreg.
  destruct (flush_trace q Hmax Hreg) as (n & final & Hrun & Hidle & Htrace).
  exists n, final. split; [done|]. split; [done|]. rewrite Htrace.
  set (chunks := slices maxRequests (requests q)).
  split; [|split].
  - intros Hecho _ Hfmt r Hr.
    rewrite expected_all_resolved; [|done|].
    2:{ apply Forall_forall. intros c Hc. destruct (Hfmt c Hc) as [b Hb].
        by apply (formatRequests_from_well_formed c 0 b). }
    subst chunks. rewrite concat_slices by done. cbn.
    apply times_NoDup_in; [done|]. by apply list_elem_of_fmap_2.
  - intros j b e Hsent Hfail.
    destruct (expected_stops_at_failure chunks 0 [] j b e eq_refl Hsent Hfail)
      as (Hlast & l & Hl & Hsub).
    destruct (expected_settles_once chunks 0 [] eq_refl) as [o Ho].
    split; [by rewrite Ho, (settlements_last _ _ _ Ho Hlast)|].
    intros i r Hi Hr Hin. rewrite Hl in Hin. cbn in Hin.
    apply (sublist_subseteq _ _ Hsub) in Hin.
    subst chunks. rewrite concat_take_slices in Hin by done.
    apply list_elem_of_lookup in Hin as [i' Hi'].
    assert (i' < j * maxRequests) as Hlt.
    { apply lookup_lt_Some in Hi'. rewrite length_fmap, length_take in Hi'. lia. }
    rewrite list_lookup_fmap, lookup_take_lt in Hi' by done.
    rewrite <- list_lookup_fmap in Hi'.
    assert ((rr_promise <$> requests q) !! i = Some (rr_promise r)) as Hi''
      by (by rewrite list_lookup_fmap, Hr).
    pose proof (NoDup_lookup _ _ _ _ Hnd Hi' Hi''). lia.
  - intros j i r Hr Hi Hin.
    rewrite resolved_resolutions in Hin.
    apply list_elem_of_fmap in Hin as ([p v] & Hp & Hin). cbn in Hp.
    pose proof Hin as Hev. apply elem_of_resolutions in Hev.
    apply expected_resolve_inv in Hev
      as [Hev|(j' & c & b & response & i' & r' & Hc & Hb & Hg & Hr' & Hp'
                & Hv & Hne)];
      [by apply elem_of_nil in Hev|].
    destruct (slices_lookup_Some _ _ _ _ Hmax Hc) as [Hj' ->].
    apply lookup_take_Some in Hr' as [Hr' Hi']. rewrite lookup_drop in Hr'.
    assert ((rr_promise <$> requests q) !! (j * maxRequests + i)
            = Some (rr_promise r)) as H1 by (by rewrite list_lookup_fmap, Hr).
    assert ((rr_promise <$> requests q) !! (j' * maxRequests + i')
            = Some (rr_promise r)) as H2
      by (rewrite list_lookup_fmap, Hr'; cbn; by rewrite Hp', Hp).
    pose proof (NoDup_lookup _ _ _ _ Hnd H1 H2) as Heq.
    assert (j' = j) as ->.
    { destruct (Nat.lt_trichotomy j j') as [Hlt|[Heq'|Hlt]]; [|done|].
      - assert (S j * maxRequests ≤ j' * maxRequests)
          by (apply Nat.mul_le_mono_r; lia). lia.
      - assert (S j' * maxRequests ≤ j * maxRequests)
          by (apply Nat.mul_le_mono_r; lia). lia. }
    assert (i' = i) as -> by lia.
    exists b, response, v. by rewrite Hp.
Qed.


(** C4, amended: when the response to the aggregate call of a chunk
    carries a top-level error, the flush itself fails with the error made
    from its code and message, and no operation of that chunk, or of a later
    one, is resolved or rejected. *)
Theorem flush_top_level_error (q : BatchQueue) (j : nat)
    (batchRequest : list IGraphBatchRequestFragment)
    (graphResponse : IGraphBatchResponse) (err : BatchError) :
  0 < maxRequests → registered q → NoDup (rr_promise <$> requests q) →
  ∃ n final,
    (∀ fuel, n ≤ fuel → flush transport maxRequests fuel q = final)
    ∧ step final = None
    ∧ (transmitted (trace final) !! j = Some batchRequest →
       transport j batchRequest = NetJson graphResponse →
       gr_error graphResponse = Some err →
       last (trace final) = Some (FlushRejected (batch_error err))
       ∧ (∀ j' c r, j ≤ j' →
            slices maxRequests (requests q) !! j' = Some c → r ∈ c →
            (rr_promise r ∉ resolved (trace final))
            ∧ (rr_promise r ∉ rejected (trace final)))).
Proof.
  intros Hmax Hreg Hnd.
  destruct (flush_trace q Hmax Hreg) as (n & final & Hrun & Hidle & Htrace).
  exists n, final. split; [done|]. split; [done|]. rewrite Htrace.
  intros Hsent Hnet Herr.
  assert (graphPost (transport (0 + j) batchRequest) = Throw (batch_error err))
    as Hfail.
  { simpl. rewrite Hnet. unfold graphPost, BatchParse. by rewrite Herr. }
  destruct (expected_stops_at_failure _ 0 [] j batchRequest _ eq_refl Hsent Hfail)
    as (Hlast & l & Hl & Hsub).
  split; [done|]. intros j' c r Hj' Hc Hr. split.
  - rewrite Hl. cbn. intros Hin.
    rewrite <- (concat_slices maxRequests (requests q) Hmax) in Hnd.
    set (chunks := slices maxRequests (requests q)) in *.
    rewrite <- (take_drop j chunks), concat_app, fmap_app in Hnd.
    apply NoDup_app in Hnd as (_ & Hdisjoint & _).
    apply (Hdisjoint (rr_promise r)).
    + by apply (sublist_subseteq _ _ Hsub).
    + apply list_elem_of_fmap_2, (elem_of_concat _ c); [|done].
      apply list_elem_of_lookup. exists (j' - j).
      rewrite lookup_drop. replace (j + (j' - j)) with j' by lia. done.
  - rewrite expected_no_reject. apply not_elem_of_nil.
Qed.

End FlushTrace.


(** ** Batch: flushes of concrete queues *)

Section FlushScenarios.

Import BatchModel Usage Scenarios.

Lemma queue_of_registered (n : nat) : registered (queue_of n).
Proof.
  unfold registered. induction n as [|n IH]; [done|].
  cbn [queue_of register send snd registrationPromises].
  rewrite insert_app_r_alt by done. rewrite Nat.sub_diag. cbn [insert list_insert].
  rewrite forallb_app, IH. done.
Qed.

Lemma queue_of_promises (n : nat) : rr_promise <$> requests (queue_of n) = seq 0 n.
Proof.
  induction n as [|n IH]; [done|].
  cbn [queue_of register send snd requests]. rewrite fmap_app, IH.
  cbn [fmap list_fmap rr_promise]. rewrite seq_S.
  do 2 f_equal. rewrite <- (length_fmap rr_promise), IH. apply length_seq.
Qed.

Lemma queue_of_well_formed (n : nat) : Forall well_formed (requests (queue_of n)).
Proof.
  induction n as [|n IH]; [constructor|].
  cbn [queue_of register send snd requests]. apply Forall_app. split; [done|].
  constructor; [|constructor]. by intros text.
Qed.

Lemma echo_transport_echoes : echoes echo_transport.
Proof. intros k b. by exists echo_reply, (echo_reply <$> b), None. Qed.

(** C2 as stated fails in each of the three cases it names.  With the
    network down, and with a top-level error in the response, the flush
    fails and neither operation of the chunk is resolved or rejected; with
    one fragment for two requests, the second operation is left unsettled. *)
Lemma flush_leaves_operations_unsettled :
  (let final := flush raising_transport 20 10 (queue_of 2) in
   step raising_transport 20 final = None
   ∧ mark <$> trace final = [Sent 2; FlushFailed (Error "Failed to fetch")])
  ∧ (let final := flush error_transport 20 10 (queue_of 2) in
     step error_transport 20 final = None
     ∧ mark <$> trace final = [Sent 2; FlushFailed (batch_error bad_request)])
  ∧ (let final := flush short_transport 20 10 (queue_of 2) in
     step short_transport 20 final = None
     ∧ mark <$> trace final = [Sent 2; FlushDone; Resolved 0]).
Proof. vm_compute. done. Qed.

(** Two operations in chunks of one: the resolver of the first chunk's
    operation is called before the request of the second chunk leaves, and
    the promise of [execute] is resolved before the resolver of the last
    operation is called. *)
Lemma flush_of_two_chunks :
  let final := flush echo_transport 1 10 (queue_of 2) in
  step echo_transport 1 final = None
  ∧ mark <$> trace final = [Sent 1; Resolved 0; Sent 1; FlushDone; Resolved 1].
Proof. vm_compute. done. Qed.

(** C4 as stated fails: with a top-level error in the response no
    operation of the chunk is rejected; the error goes to the caller of the
    flush. *)
Lemma flush_error_rejects_nothing :
  let final := flush error_transport 20 10 (queue_of 3) in
  step error_transport 20 final = None
  ∧ rejected (trace final) = []
  ∧ resolved (trace final) = []
  ∧ last (trace final)
    = Some (FlushRejected
              (Error "Error Porcessing Batch: (BadRequest) Invalid batch payload format.")).
Proof. vm_compute. done. Qed.

(** C8 as stated fails when an aggregate call fails: of 45 operations only
    the first chunk of 20 is handed to the transport. *)
Lemma flush_stops_after_failed_chunk :
  let final := flush raising_transport 20 10 (queue_of 45) in
  length (requests (queue_of 45)) = 45
  ∧ step raising_transport 20 final = None
  ∧ mark <$> trace final = [Sent 20; FlushFailed (Error "Failed to fetch")].
Proof. vm_compute. done. Qed.

(** C8, amended: with chunks of 20, whatever the network does, the
    aggregate requests that leave are the encodings of the first chunks of
    the queue, in registration order, each made of the next at most 20
    operations and each sent once, and never more than ceil(N/20).  When
    encoding returns for every chunk and every aggregate call comes back
    with a response that decodes, exactly ceil(N/20) leave; for 45
    operations these are three requests of sizes 20, 20 and 5.  An
    aggregate call that fails (the transport raises, or the response
    carries a top-level error) ends the flush: its request is the last to
    leave, and the flush fails with the error. *)
Theorem flush_in_chunks_of_twenty
    (transport : nat → list IGraphBatchRequestFragment → NetOutcome)
    (q : BatchQueue) :
  registered q →
  ∃ n final,
    (∀ fuel, n ≤ fuel → flush transport 20 fuel q = final)
    ∧ step transport 20 final = None
    ∧ length (transmitted (trace final)) ≤ (length (requests q) + 19) / 20
    ∧ (∀ i b, transmitted (trace final) !! i = Some b →
         i * 20 < length (requests q)
         ∧ formatRequests (take 20 (drop (i * 20) (requests q))) = Normal b
         ∧ length b = 20 `min` (length (requests q) - i * 20))
    ∧ ((∀ i, i * 20 < length (requests q) →
          ∃ b response,
            formatRequests (take 20 (drop (i * 20) (requests q))) = Normal b
            ∧ graphPost (transport i b) = Normal response) →
       length (transmitted (trace final)) = (length (requests q) + 19) / 20
       ∧ (length (requests q) = 45 →
          length <$> transmitted (trace final) = [20; 20; 5]))
    ∧ (∀ j b e,
         transmitted (trace final) !! j = Some b →
         graphPost (transport j b) = Throw e →
         length (transmitted (trace final)) = S j
         ∧ settlements (trace final) = [Some e]).
Proof.
  intros Hreg.
  destruct (flush_trace transport 20 q ltac:(lia) Hreg)
    as (n & final & Hrun & Hidle & Htrace).
  exists n, final. split; [done|]. split; [done|]. rewrite Htrace.
  set (chunks := slices 20 (requests q)).
  assert (length chunks = (length (requests q) + 19) / 20) as Hchunks.
  { subst chunks. rewrite slices_length by lia. f_equal. lia. }
  destruct (expected_transmits_prefix transport chunks 0 [] eq_refl) as [m Hm].
  assert (∀ i b, transmitted (expected transport 0 chunks []) !! i = Some b →
            i * 20 < length (requests q)
            ∧ formatRequests (take 20 (drop (i * 20) (requests q))) = Normal b
            ∧ length b = 20 `min` (length (requests q) - i * 20)) as Hsent.
  { intros i b Hb.
    destruct (Forall2_lookup_l _ _ _ _ _ Hm Hb) as (c & Hc & Hfmt).
    apply lookup_take_Some in Hc as [Hc _].
    destruct (slices_lookup_Some 20 _ _ _ ltac:(lia) Hc) as [Hi ->].
    split; [done|]. split; [done|].
    rewrite (proj1 (formatRequests_from_ids _ _ _ Hfmt)).
    by rewrite length_take, length_drop. }
  split.
  { rewrite (Forall2_length _ _ _ Hm), length_take. lia. }
  split; [done|]. split.
  - intros Hall.
    assert (Forall2 (λ b c, formatRequests c = Normal b)
              (transmitted (expected transport 0 chunks [])) chunks) as Hevery.
    { apply expected_transmits_every; [|done]. intros j c Hc.
      destruct (slices_lookup_Some 20 _ _ _ ltac:(lia) Hc) as [Hj ->].
      by apply Hall. }
    assert (length (transmitted (expected transport 0 chunks []))
            = (length (requests q) + 19) / 20) as Hcount
      by (by rewrite (Forall2_length _ _ _ Hevery)).
    split; [done|].
    intros H45. rewrite H45 in Hcount. change ((45 + 19) / 20) with 3 in Hcount.
    destruct (transmitted (expected transport 0 chunks []))
      as [|x0 [|x1 [|x2 [|x3 l]]]] eqn:Et; simpl in Hcount; try lia.
    destruct (Hsent 0 x0 eq_refl) as (_ & _ & L0).
    destruct (Hsent 1 x1 eq_refl) as (_ & _ & L1).
    destruct (Hsent 2 x2 eq_refl) as (_ & _ & L2).
    cbn. rewrite L0, L1, L2, H45. done.
  - intros j b e Hb Hfail. split.
    + by apply (expected_failure_is_last_sent transport chunks 0 [] j b e).
    + destruct (expected_stops_at_failure transport chunks 0 [] j b e
                  eq_refl Hb Hfail) as [Hlast _].
      destruct (expected_settles_once transport chunks 0 [] eq_refl) as [o Ho].
      by rewrite Ho, (settlements_last _ _ _ Ho Hlast).
Qed.

Lemma echo_transport_accepted : accepted echo_transport.
Proof.
  intros k b graphResponse [= <-]. cbn [gr_responses].
  apply Forall_fmap, Forall_forall. intros fr _. right.
  cbn. split; [lia|]. split; [right; lia|]. split; [done|].
  apply map_Forall_empty.
Qed.

(** The chunks of a queue of well-formed operations are encoded, and the
    echoing network answers each. *)
Lemma queue_of_chunks_go_through (n m i : nat) :
  0 < m →
  ∃ b response,
    formatRequests (take m (drop (i * m) (requests (queue_of n)))) = Normal b
    ∧ graphPost (echo_transport i b) = Normal response.
Proof.
  intros Hm.
  destruct (formatRequests_total
              (take m (drop (i * m) (requests (queue_of n)))) 0) as [b Hb].
  { apply Forall_take, Forall_drop, queue_of_well_formed. }
  destruct (echoes_answers _ echo_transport_echoes i b) as [response Hr].
  by exists b, response.
Qed.

Lemma flush_in_chunks_of_twenty_witness :
  registered (queue_of 45)
  ∧ ∃ n final,
      (∀ fuel, n ≤ fuel → flush echo_transport 20 fuel (queue_of 45) = final)
      ∧ length (transmitted (trace final)) = 3
      ∧ length <$> transmitted (trace final) = [20; 20; 5].
Proof.
  split; [apply queue_of_registered|].
  destruct (flush_in_chunks_of_twenty echo_transport (queue_of 45)
              (queue_of_registered 45))
    as (n & final & Hrun & _ & _ & _ & Hall & _).
  destruct (Hall (λ i _, queue_of_chunks_go_through 45 20 i ltac:(lia)))
    as [Hcount H45].
  exists n, final. split; [exact Hrun|]. split.
  - rewrite Hcount. reflexivity.
  - apply H45. reflexivity.
Defined.

Lemma queue_of_NoDup (n : nat) : NoDup (rr_promise <$> requests (queue_of n)).
Proof. rewrite queue_of_promises. apply NoDup_seq. Qed.

Lemma flush_settles_at_most_once_witness :
  NoDup (rr_promise <$> requests (queue_of 3))
  ∧ 0 < 2 ∧ registered (queue_of 3)
  ∧ ∃ n final,
      (∀ fuel, n ≤ fuel → flush echo_transport 2 fuel (queue_of 3) = final)
      ∧ ∀ r, r ∈ requests (queue_of 3) →
             times (rr_promise r) (resolved (trace final)) = 1
             ∧ times (rr_promise r)
                     (rejected (trace (flush echo_transport 2 4 (queue_of 3))))
               = 0.
Proof.
  split; [apply queue_of_NoDup|]. split; [lia|].
  split; [apply queue_of_registered|].
  destruct (flush_settles_at_most_once echo_transport 2 (queue_of 3)
              (queue_of_NoDup 3)) as [Hsafe Hrest].
  destruct (Hrest ltac:(lia) (queue_of_registered 3))
    as (n & final & Hrun & _ & Hexact & _).
  exists n, final. split; [exact Hrun|].
  intros r Hr. split.
  - apply (Hexact echo_transport_echoes echo_transport_accepted); [|exact Hr].
    intros c Hc.
    destruct (formatRequests_total c 0) as [b Hb]; [|by exists b].
    pose proof (slices_Forall 2 well_formed (requests (queue_of 3))
                  ltac:(lia) (queue_of_well_formed 3)) as Hall.
    by apply (proj1 (Forall_forall _ _) Hall).
  - exact (proj2 (Hsafe 4 r Hr)).
Defined.


Lemma flush_top_level_error_witness :
  ∃ n final,
    (∀ fuel, n ≤ fuel → flush error_transport 2 fuel (queue_of 3) = final)
    ∧ last (trace final) = Some (FlushRejected (batch_error bad_request))
    ∧ resolved (trace final) = [].
Proof.
  assert (∃ b, formatRequests (take 2 (requests (queue_of 3))) = Normal b)
    as [b Hb] by (eexists; reflexivity).
  destruct (flush_top_level_error error_transport 2 (queue_of 3) 0 b
              {| gr_error := Some bad_request; gr_responses := [];
                 gr_nextLink := None |} bad_request
              ltac:(lia) (queue_of_registered 3) (queue_of_NoDup 3))
    as (n & final & Hrun & Hidle & Herr).
  assert (final = flush error_transport 2 10 (queue_of 3)) as Hfinal.
  { apply (flush_final_unique error_transport 2 (queue_of 3) n 10);
      [exact Hrun|reflexivity|reflexivity]. }
  exists n, final. split; [exact Hrun|].
  split.
  - apply Herr; [|reflexivity|reflexivity].
    rewrite Hfinal. injection Hb as <-. reflexivity.
  - rewrite Hfinal. reflexivity.
Defined.

End FlushScenarios.


(** * Further properties *)

(** ** Timeline: subscribing, clearing, resetting *)

Section TimelineSurface.

Import TimelineModel Usage Scenarios.

Implicit Types (t : Timeline) (h : Heap) (p q : string) (f : ValidObserver).

Lemma observersOf_insert_eq t h p (arr : list ValidObserver) :
  observersOf t (<[observers t := <[p := arr]> (deref h (observers t))]> h) p = arr.
Proof.
  unfold observersOf. by rewrite deref_insert_eq, lookup_insert_eq.
Qed.

Lemma observersOf_insert_ne t h p q (arr : list ValidObserver) :
  q ≠ p →
  observersOf t (<[observers t := <[p := arr]> (deref h (observers t))]> h) q
  = observersOf t h q.
Proof.
  intros Hne. unfold observersOf.
  by rewrite deref_insert_eq, lookup_insert_ne.
Qed.

(** The instance [on] leaves behind sees, at every point, what the
    instance saw before with [arr] at [p], when [on] has given [p] the
    array [arr]. *)
Lemma on_view t h p f q :
  observersOf (out_this (on t h p (HFunc f))) (out_heap (on t h p (HFunc f))) q
  = if decide (q = p) then observersOf t h p ++ [f] else observersOf t h q.
Proof.
  unfold on, cloneDeep, alloc.
  destruct (_inheritingObservers t); simpl.
  - unfold observersOf at 1. simpl.
    rewrite deref_insert_eq, deref_insert_eq.
    destruct (decide (q = p)) as [->|Hne].
    + rewrite lookup_insert_eq. unfold observersOf.
      by destruct (deref h (observers t) !! p).
    + by rewrite lookup_insert_ne.
  - destruct (decide (q = p)) as [->|Hne].
    + rewrite observersOf_insert_eq. unfold observersOf.
      by destruct (deref h (observers t) !! p).
    + by rewrite observersOf_insert_ne.
Qed.

Lemma on_replace_view t h p f q :
  observersOf t (out_heap (on_replace t h p (HFunc f))) q
  = if decide (q = p) then [f] else observersOf t h q.
Proof.
  unfold on_replace. simpl. destruct (decide (q = p)) as [->|Hne].
  - rewrite observersOf_insert_eq. by destruct (deref h (observers t) !! p).
  - by rewrite observersOf_insert_ne.
Qed.

Lemma on_prepend_view t h p f q :
  observersOf t (out_heap (on_prepend t h p (HFunc f))) q
  = if decide (q = p) then f :: observersOf t h p else observersOf t h q.
Proof.
  unfold on_prepend. simpl. destruct (decide (q = p)) as [->|Hne].
  - rewrite observersOf_insert_eq. unfold observersOf.
    by destruct (deref h (observers t) !! p).
  - by rewrite observersOf_insert_ne.
Qed.

Lemma clear_view t h p q :
  observersOf t (out_heap (clear t h p)) q
  = if decide (q = p) then [] else observersOf t h q.
Proof.
  unfold clear. destruct (deref h (observers t) !! p) as [arr|] eqn:E; simpl.
  - destruct (decide (q = p)) as [->|Hne].
    + by rewrite observersOf_insert_eq.
    + by rewrite observersOf_insert_ne.
  - destruct (decide (q = p)) as [->|Hne]; [|done].
    unfold observersOf. by rewrite E.
Qed.

(** X1: at a point that is not an inherited property name, observers
    subscribed with the plain [on] are listed in the order of the calls,
    after those that were there, whatever the mode of the instance at the
    first call; the other such points list what they did. *)
Theorem subscriptions_keep_order (fs : list ValidObserver) t h p :
  inherited p = false →
  let '(t', h') := perform_all (t, h) (CallOn p <$> (HFunc <$> fs)) in
  toArray t' h' p = toArray t h p ++ fs
  ∧ ∀ q, q ≠ p → inherited q = false → toArray t' h' q = toArray t h q.
Proof.
  intros _. revert t h. induction fs as [|f fs IH]; intros t h.
  - simpl. split; [by rewrite app_nil_r|done].
  - unfold perform_all in *. simpl.
    specialize (IH (out_this (on t h p (HFunc f))) (out_heap (on t h p (HFunc f)))).
    destruct (foldl perform _ _) as [t' h']. destruct IH as [IHp IHq].
    unfold toArray in *. split.
    + rewrite IHp, on_view. rewrite decide_True by done. by rewrite <- app_assoc.
    + intros q Hq Hown. rewrite (IHq q Hq Hown), on_view. by rewrite decide_False.
Qed.

Lemma subscriptions_keep_order_witness :
  inherited "x" = false
  ∧ (let '(t', h') :=
       perform_all (child_A, parent_heap)
                   (CallOn "x" <$> (HFunc <$> [quiet 2; quiet 3])) in
     toArray t' h' "x" = toArray child_A parent_heap "x" ++ [quiet 2; quiet 3]
     ∧ ∀ q, q ≠ "x" → inherited q = false →
            toArray t' h' q = toArray child_A parent_heap q).
Proof.
  split; [reflexivity|].
  exact (subscriptions_keep_order [quiet 2; quiet 3] child_A parent_heap "x"
           eq_refl).
Defined.

(** X2: what the instance lists after one subscription at a point that
    is not an inherited property name: [on] appends, [prepend] puts the
    observer first, [replace] leaves it alone; no other such point
    changes. *)
Theorem subscription_modes t h p f :
  inherited p = false →
  toArray (out_this (on t h p (HFunc f))) (out_heap (on t h p (HFunc f))) p
  = toArray t h p ++ [f]
  ∧ toArray t (out_heap (on_prepend t h p (HFunc f))) p = f :: toArray t h p
  ∧ toArray t (out_heap (on_replace t h p (HFunc f))) p = [f]
  ∧ ∀ q, q ≠ p → inherited q = false →
      toArray (out_this (on t h p (HFunc f))) (out_heap (on t h p (HFunc f))) q
      = toArray t h q
      ∧ toArray t (out_heap (on_prepend t h p (HFunc f))) q = toArray t h q
      ∧ toArray t (out_heap (on_replace t h p (HFunc f))) q = toArray t h q.
Proof.
  intros _. unfold toArray.
  split; [|split; [|split; [|intros q Hq _; split; [|split]]]].
  - rewrite on_view. by rewrite decide_True.
  - rewrite on_prepend_view. by rewrite decide_True.
  - rewrite on_replace_view. by rewrite decide_True.
  - rewrite on_view. by rewrite decide_False.
  - rewrite on_prepend_view. by rewrite decide_False.
  - rewrite on_replace_view. by rewrite decide_False.
Qed.

Lemma subscription_modes_witness :
  inherited "x" = false
  ∧ toArray child_A (out_heap (on_prepend child_A parent_heap "x" (HFunc (quiet 2))))
            "x"
    = quiet 2 :: toArray child_A parent_heap "x"
  ∧ toArray child_A (out_heap (on_replace child_A parent_heap "x" (HFunc (quiet 2))))
            "x"
    = [quiet 2].
Proof.
  split; [reflexivity|].
  pose proof (subscription_modes child_A parent_heap "x" (quiet 2) eq_refl)
    as (_ & Hprepend & Hreplace & _).
  split; [exact Hprepend|exact Hreplace].
Defined.

(** X3: a handler that is not a function is refused by all three
    subscriptions with the same error, and no collection that was there
    changes; the plain [on] of an inheriting instance has by then taken its
    copy and left the Inheriting mode. *)
Theorem subscription_refused t h p (v : Value) :
  out_result (on t h p (HOther v)) = Throw (Error "Observers must be functions.")
  ∧ out_result (on_replace t h p (HOther v))
    = Throw (Error "Observers must be functions.")
  ∧ out_result (on_prepend t h p (HOther v))
    = Throw (Error "Observers must be functions.")
  ∧ out_heap (on_replace t h p (HOther v)) = h
  ∧ out_heap (on_prepend t h p (HOther v)) = h
  ∧ (∀ l, l ∈ dom h → out_heap (on t h p (HOther v)) !! l = h !! l)
  ∧ (_inheritingObservers t = true →
     _inheritingObservers (out_this (on t h p (HOther v))) = false
     ∧ _parentObservers (out_this (on t h p (HOther v))) = Some (observers t)
     ∧ observers (out_this (on t h p (HOther v))) ∉ dom h)
  ∧ (_inheritingObservers t = false → out_this (on t h p (HOther v)) = t
     ∧ out_heap (on t h p (HOther v)) = h).
Proof.
  unfold on, on_replace, on_prepend, cloneDeep, alloc.
  split; [by destruct (_inheritingObservers t)|].
  split; [done|]. split; [done|]. split; [done|]. split; [done|].
  split; [|split].
  - intros l Hl. destruct (_inheritingObservers t); simpl; [|done].
    apply lookup_insert_ne. intros <-. by apply (is_fresh (dom h)).
  - intros ->. simpl. split; [done|]. split; [done|]. apply is_fresh.
  - intros ->. done.
Qed.

Lemma subscription_refused_witness :
  _inheritingObservers child_A = true
  ∧ out_result (on child_A parent_heap "x" (HOther VNull))
    = Throw (Error "Observers must be functions.")
  ∧ _inheritingObservers (out_this (on child_A parent_heap "x" (HOther VNull)))
    = false.
Proof.
  split; [reflexivity|].
  pose proof (subscription_refused child_A parent_heap "x" VNull)
    as (H1 & _ & _ & _ & _ & _ & H7 & _).
  split; [exact H1|]. exact (proj1 (H7 eq_refl)).
Defined.

(** X4: at a point that is not an inherited property name, [clear]
    answers whether the point has a registration; after it the point lists
    nothing and every other such point lists what it did; the registration
    stays, so a second [clear] answers true again, and the next
    subscription starts a list of one. *)
Theorem clear_behaviour t h p f :
  inherited p = false →
  let c := clear t h p in
  out_this c = t
  ∧ out_result c = Normal (bool_decide (is_Some (deref h (observers t) !! p)))
  ∧ toArray t (out_heap c) p = []
  ∧ (∀ q, q ≠ p → inherited q = false →
          toArray t (out_heap c) q = toArray t h q)
  ∧ (out_result c = Normal false → out_heap c = h)
  ∧ (out_result c = Normal true →
     out_result (clear t (out_heap c) p) = Normal true)
  ∧ toArray (out_this (on t (out_heap c) p (HFunc f)))
            (out_heap (on t (out_heap c) p (HFunc f))) p = [f].
Proof.
  intros _. cbv zeta. unfold toArray.
  split; [|split; [|split; [|split; [|split; [|split]]]]].
  - unfold clear. by destruct (deref h (observers t) !! p).
  - unfold clear. destruct (deref h (observers t) !! p) eqn:E; cbn [out_result].
    + by rewrite bool_decide_eq_true_2 by eauto.
    + rewrite bool_decide_eq_false_2; [done|]. by intros [? ?].
  - rewrite clear_view. by rewrite decide_True.
  - intros q Hq _. rewrite clear_view. by rewrite decide_False.
  - unfold clear. by destruct (deref h (observers t) !! p).
  - unfold clear at 1 3. destruct (deref h (observers t) !! p) eqn:E; simpl; [|done].
    intros _. unfold clear. rewrite deref_insert_eq, lookup_insert_eq. done.
  - rewrite on_view, decide_True by done. by rewrite clear_view, decide_True.
Qed.

Lemma clear_behaviour_witness :
  inherited "x" = false
  ∧ out_result (clear child_A parent_heap "x") = Normal true
  ∧ out_result (clear child_A (out_heap (clear child_A parent_heap "x")) "x")
    = Normal true.
Proof.
  pose proof (clear_behaviour child_A parent_heap "x" (quiet 2) eq_refl)
    as (_ & _ & _ & _ & _ & H & _).
  assert (out_result (clear child_A parent_heap "x") = Normal true) as H1
    by reflexivity.
  split; [reflexivity|]. split; [exact H1|exact (H H1)].
Defined.

(** X5: [resetObservers] after the first write of an inheriting instance
    gives back the instance as it was, which lists at every point what the
    parent holds: the subscription is dropped.  On an instance that inherits,
    or that never had a parent, it does nothing, and doing it twice is doing
    it once. *)
Theorem reset_drops_local_subscriptions t h p f :
  (_inheritingObservers t = true → _parentObservers t = None →
   observers t ∈ dom h →
   let r := on t h p (HFunc f) in
   resetObservers (out_this r) = t
   ∧ ∀ q, toArray (resetObservers (out_this r)) (out_heap r) q = toArray t h q)
  ∧ (_inheritingObservers t = true ∨ _parentObservers t = None →
     resetObservers t = t)
  ∧ resetObservers (resetObservers t) = resetObservers t.
Proof.
  split; [|split].
  - intros Hinh Hpar Hdom. cbv zeta.
    assert (resetObservers (out_this (on t h p (HFunc f))) = t) as Hreset
      by (by apply reset_after_first_write).
    split; [done|]. intros q. rewrite Hreset.
    destruct (on_copy_on_first_write t h p f Hinh Hdom)
      as (_ & _ & _ & _ & Hsame & _).
    unfold toArray, observersOf, deref. by rewrite Hsame.
  - unfold resetObservers. intros [->| ->]; [done|].
    by destruct (_inheritingObservers t).
  - unfold resetObservers.
    destruct (_inheritingObservers t) eqn:E1, (_parentObservers t) eqn:E2;
      simpl; by rewrite ?E1, ?E2.
Qed.

Lemma reset_drops_local_subscriptions_witness :
  toArray (resetObservers (out_this (on child_A parent_heap "x" (HFunc (quiet 2)))))
          (out_heap (on child_A parent_heap "x" (HFunc (quiet 2)))) "x"
  = toArray child_A parent_heap "x".
Proof.
  apply (proj1 (reset_drops_local_subscriptions child_A parent_heap "x" (quiet 2)));
    [reflexivity|reflexivity|].
  apply elem_of_dom. by exists {[ "x" := [quiet 1] ]}.
Defined.

(** *** The instance stays sound *)

Lemma dom_insert_old h (l l' : loc) (c : ObserverCollection) :
  l' ∈ dom h → l' ∈ dom (<[l := c]> h).
Proof. intros Hl. rewrite dom_insert_L. apply elem_of_union. by right. Qed.

Lemma dom_insert_new h (l : loc) (c : ObserverCollection) :
  l ∈ dom (<[l := c]> h).
Proof. rewrite dom_insert_L. apply elem_of_union. left. by apply elem_of_singleton. Qed.

Lemma addObserver_dom h (l l' : loc) p hd b :
  l' ∈ dom h → l' ∈ dom (addObserver h l p hd b).1.
Proof.
  intros Hl. unfold addObserver. destruct hd; simpl; [|done].
  by apply dom_insert_old.
Qed.

Lemma constructor_sound ms (obs : option loc) h :
  (∀ l, obs = Some l → l ∈ dom h) → sound (constructor ms obs h).
Proof.
  intros Hobs. unfold constructor, alloc. destruct obs as [l|]; simpl.
  - split; [by apply Hobs|]. split; [done|]. by intros l'.
  - split; [apply dom_insert_new|]. split; [done|]. by intros l'.
Qed.

Lemma perform_sound (st : Timeline * Heap) (c : Call) :
  sound st → sound (perform st c).
Proof.
  destruct st as [t h]. intros (Hdom & Hinh & Hpar).
  destruct c as [p hd|p hd|p hd|p|]; simpl.
  - unfold on, cloneDeep, alloc.
    destruct (_inheritingObservers t) eqn:E; simpl.
    + pose proof (is_fresh (dom h)) as Hfresh.
      destruct (addObserver _ _ _ _ _) as [h2 r] eqn:Ea. simpl.
      assert (∀ l, l ∈ dom (<[fresh (dom h) := deref h (observers t)]> h) →
                   l ∈ dom h2) as Hgrow.
      { intros l Hl. change h2 with ((h2, r).1). rewrite <- Ea.
        by apply addObserver_dom. }
      split; [apply Hgrow, dom_insert_new|].
      split; [done|]. intros l [= <-].
      split; [by apply Hgrow, dom_insert_old|].
      intros Heq. rewrite Heq in Hdom. by apply (is_fresh (dom h)).
    + destruct (addObserver _ _ _ _ _) as [h2 r] eqn:Ea. simpl.
      assert (∀ l, l ∈ dom h → l ∈ dom h2) as Hgrow.
      { intros l Hl. change h2 with ((h2, r).1). rewrite <- Ea.
        by apply addObserver_dom. }
      split; [by apply Hgrow|]. split; [intros ?; congruence|].
      intros l Hl. destruct (Hpar l Hl). split; [by apply Hgrow|done].
  - unfold on_replace.
    destruct (addObserver _ _ _ _ _) as [h2 r] eqn:Ea. simpl.
    assert (∀ l, l ∈ dom h → l ∈ dom h2) as Hgrow.
    { intros l Hl. change h2 with ((h2, r).1). rewrite <- Ea.
      by apply addObserver_dom. }
    split; [by apply Hgrow|]. split; [done|].
    intros l Hl. destruct (Hpar l Hl). split; [by apply Hgrow|done].
  - unfold on_prepend.
    destruct (addObserver _ _ _ _ _) as [h2 r] eqn:Ea. simpl.
    assert (∀ l, l ∈ dom h → l ∈ dom h2) as Hgrow.
    { intros l Hl. change h2 with ((h2, r).1). rewrite <- Ea.
      by apply addObserver_dom. }
    split; [by apply Hgrow|]. split; [done|].
    intros l Hl. destruct (Hpar l Hl). split; [by apply Hgrow|done].
  - unfold clear. destruct (deref h (observers t) !! p) as [arr|]; simpl; [|done].
    split; [apply dom_insert_new|]. split; [done|].
    intros l Hl. destruct (Hpar l Hl).
    split; [by apply dom_insert_old|done].
  - unfold resetObservers.
    destruct (_inheritingObservers t) eqn:E;
      destruct (_parentObservers t) as [parent|] eqn:Ep; simpl;
      rewrite ?E, ?Ep; try done.
    destruct (Hpar parent eq_refl). split; [done|]. split; [done|]. by intros l.
Qed.

(** X6: whatever calls are made on an instance after its construction,
    in whatever order and whether they return or throw, its working
    collection exists, it holds a parent only while it owns its collection,
    and the parent it holds is another object than its working
    collection. *)
Theorem calls_keep_instance_sound ms (obs : option loc) h (cs : list Call) :
  (∀ l, obs = Some l → l ∈ dom h) →
  sound (perform_all (constructor ms obs h) cs).
Proof.
  intros Hobs. unfold perform_all.
  generalize (constructor_sound ms obs h Hobs).
  generalize (constructor ms obs h). clear Hobs.
  induction cs as [|c cs IH]; intros st Hst; [done|].
  simpl. apply IH. by apply perform_sound.
Qed.

Lemma calls_keep_instance_sound_witness :
  sound (perform_all (constructor ∅ (Some 1%positive) parent_heap)
           [CallReplace "x" (HFunc (quiet 2)); CallOn "y" (HOther VNull);
            CallClear "x"; CallReset; CallPrepend "x" (HFunc (quiet 3))]).
Proof.
  apply calls_keep_instance_sound.
  intros l [= <-]. apply elem_of_dom. by exists {[ "x" := [quiet 1] ]}.
Defined.

(** X7: registering an instance for batching replaces the observers of
    "send" in the collection the instance points to, for every instance that
    points to it, and leaves the instance in the mode it was in: an instance
    that still inherits changes its parent's collection. *)
Theorem batch_registration_is_shared t h f (other : Timeline) :
  observers other = observers t →
  out_this (install_send t h f) = t
  ∧ out_result (install_send t h f) = Normal tt
  ∧ toArray other (out_heap (install_send t h f)) "send" = [f].
Proof.
  intros Hsame. unfold install_send. split; [done|]. split; [done|].
  unfold toArray, observersOf. rewrite Hsame.
  pose proof (on_replace_view t h "send" f "send") as Hview.
  unfold observersOf in Hview. by rewrite decide_True in Hview.
Qed.

Lemma batch_registration_is_shared_witness :
  toArray child_B (out_heap (install_send child_A parent_heap (quiet 9))) "send"
  = [quiet 9].
Proof.
  apply (batch_registration_is_shared child_A parent_heap (quiet 9) child_B).
  reflexivity.
Defined.

End TimelineSurface.

(** ** Timeline: what an emit can end in *)

Section EmitOutcomes.

Import TimelineModel Usage Scenarios.

Implicit Types (t : Timeline) (h : Heap) (p : string) (args : list Value).







End EmitOutcomes.

(** ** Batch: more on encoding and decoding *)

Section CodecEdges.

Import BatchModel Usage Scenarios.

Lemma substr_suffix (s : string) (n : nat) : ∃ pre, s = pre +:+ substr s n.
Proof.
  revert s. induction n as [|n IH]; intros s; [by exists ""|].
  destruct s as [|c s]; [by exists ""|].
  destruct (IH s) as [pre Hpre]. exists (String c pre).
  change (String c s = String c (pre +:+ substr s n)). by f_equal.
Qed.

(** X10: the address [makeUrlRelative] returns is always an end piece of
    the address it was given: it cuts at the front and changes nothing
    else. *)
Theorem makeUrlRelative_suffix (url : string) :
  ∃ pre, url = pre +:+ makeUrlRelative url.
Proof.
  unfold makeUrlRelative. destruct (negb (isUrlAbsolute url)); [by exists ""|].
  destruct (indexOf "/v1.0/" url) as [i|]; [apply substr_suffix|].
  destruct (indexOf "/beta/" url) as [i|]; [apply substr_suffix|by exists ""].
Qed.

(** *** formatRequests *)


Lemma formatRequests_from_lookup (l : list RequestRecord) (k : nat)
    (b : list IGraphBatchRequestFragment) (i : nat) (r : RequestRecord) :
  formatRequests_from k l = Normal b → l !! i = Some r →
  ∃ fr, b !! i = Some fr ∧ formatRequest (k + i) r = Normal fr.
Proof.
  revert k b i. induction l as [|r0 l IH]; intros k b i; [done|].
  cbn [formatRequests_from].
  destruct (formatRequest k r0) as [fr0|e] eqn:Er; [|done].
  destruct (formatRequests_from (S k) l) as [frs|e] eqn:El; [|done].
  intros [= <-]. destruct i as [|i]; simpl.
  - intros [= <-]. exists fr0. by rewrite Nat.add_0_r.
  - intros Hr. destruct (IH _ _ _ El Hr) as (fr & Hfr & Hfmt).
    exists fr. split; [done|]. by rewrite <- Nat.add_succ_comm.
Qed.

(** X11: when [formatRequests] returns, it returns one fragment per
    request, the fragment at index [i] carrying the id [i + 1], and no
    request carried a body [JSON.parse] refuses. *)
Theorem formatRequests_returns_only_well_formed (l : list RequestRecord)
    (b : list IGraphBatchRequestFragment) :
  formatRequests l = Normal b →
  length b = length l
  ∧ Forall well_formed l
  ∧ ∀ i fr, b !! i = Some fr → frag_id fr = string_of_nat (S i).
Proof.
  intros Hb. destruct (formatRequests_from_ids l 0 b Hb) as [Hlen Hids].
  split; [done|]. split; [by apply (formatRequests_from_well_formed l 0 b)|].
  intros i fr Hfr. by rewrite (Hids i fr Hfr).
Qed.

Lemma formatRequests_returns_only_well_formed_witness :
  ∃ b, formatRequests [get_request 0 "/me"; get_request 1 "/users"] = Normal b
       ∧ length b = 2
       ∧ frag_id <$> b = ["1"; "2"].
Proof.
  assert (∃ b, formatRequests [get_request 0 "/me"; get_request 1 "/users"]
               = Normal b) as [b Hb] by (eexists; reflexivity).
  destruct (formatRequests_returns_only_well_formed _ b Hb) as (Hlen & _ & Hids).
  exists b. split; [exact Hb|]. split; [exact Hlen|].
  injection Hb as <-. reflexivity.
Defined.

(** X12: the fragment made for a request carries its method and its
    address made relative; its headers are those of the request, with
    Content-Type set to application/json, over what the request had, for
    every method other than GET and untouched for GET; it has a body exactly
    when the request has one. *)
Theorem formatRequests_fragment (l : list RequestRecord)
    (b : list IGraphBatchRequestFragment) (i : nat) (r : RequestRecord)
    (fr : IGraphBatchRequestFragment) :
  formatRequests l = Normal b → l !! i = Some r → b !! i = Some fr →
  frag_method fr = init_method (rr_init r)
  ∧ frag_url fr = makeUrlRelative (rr_url r)
  ∧ (init_method (rr_init r) = "GET" → frag_headers fr = init_headers (rr_init r))
  ∧ (init_method (rr_init r) ≠ "GET" →
     frag_headers fr !! "Content-Type" = Some "application/json")
  ∧ (∀ key, key ≠ "Content-Type" →
       frag_headers fr !! key = init_headers (rr_init r) !! key)
  ∧ (frag_body fr = None ↔ init_body (rr_init r) = None).
Proof.
  intros Hb Hr Hfr.
  destruct (formatRequests_from_lookup l 0 b i r Hb Hr) as (fr' & Hfr' & Hfmt).
  rewrite Hfr in Hfr'. injection Hfr' as <-.
  unfold formatRequest in Hfmt.
  assert (frag_method fr = init_method (rr_init r)
          ∧ frag_url fr = makeUrlRelative (rr_url r)
          ∧ frag_headers fr
            = (if bool_decide (init_method (rr_init r) ≠ "GET")
               then <["Content-Type" := "application/json"]>
                      (init_headers (rr_init r))
               else init_headers (rr_init r))
          ∧ (frag_body fr = None ↔ init_body (rr_init r) = None))
    as (Hm & Hu & Hh & Hbody).
  { destruct (init_body (rr_init r)) as [[j|text]|]; simpl in Hfmt; try done;
      injection Hfmt as <-; simpl; repeat split; done. }
  split; [done|]. split; [done|]. rewrite Hh. split; [|split; [|split; [|done]]].
  - intros Hget. by rewrite bool_decide_eq_false_2 by (by intros ?).
  - intros Hne. rewrite bool_decide_eq_true_2 by done. apply lookup_insert_eq.
  - intros key Hkey. destruct (bool_decide _); [|done].
    by apply lookup_insert_ne.
Qed.

Lemma formatRequests_fragment_witness :
  let r := get_request 0 "https://graph.microsoft.com/beta/me" in
  let fr := {| frag_id := "1"; frag_method := "GET"; frag_url := "me";
               frag_headers := ∅; frag_body := None |} in
  formatRequests [r] = Normal [fr]
  ∧ frag_method fr = init_method (rr_init r)
  ∧ frag_url fr = makeUrlRelative (rr_url r).
Proof.
  cbv zeta. split; [reflexivity|].
  destruct (formatRequests_fragment
              [get_request 0 "https://graph.microsoft.com/beta/me"]
              [{| frag_id := "1"; frag_method := "GET"; frag_url := "me";
                  frag_headers := ∅; frag_body := None |}]
              0 (get_request 0 "https://graph.microsoft.com/beta/me") _
              eq_refl eq_refl eq_refl) as (Hm & Hu & _).
  split; [exact Hm|exact Hu].
Defined.

(** *** parseResponse *)










(** X15: the decoder turns every echoed fragment the [Response]
    constructor accepts into a Response in its place, error statuses
    included: a status 204 gives the empty Response, which has status 200
    and neither body nor headers; any other status gives a Response with
    that status and the fragment's body. *)
Theorem every_accepted_status_decodes (chunk : list RequestRecord)
    (frags : list IGraphBatchRequestFragment)
    (reply : IGraphBatchRequestFragment → IGraphBatchResponseFragment)
    (rs : list IGraphBatchResponseFragment) (next : option string) :
  formatRequests chunk = Normal frags →
  (∀ fr, rf_id (reply fr) = frag_id fr) →
  rs ≡ₚ reply <$> frags →
  Forall constructible rs →
  ∃ p, parseResponse {| gr_error := None; gr_responses := rs; gr_nextLink := next |}
       = Normal p
       ∧ length (responses p) = length chunk
       ∧ ∀ i fr, frags !! i = Some fr →
           ∃ R, responses p !! i = Some (SResp R)
                ∧ (rf_status (reply fr) = 204%Z →
                   R = {| resp_body := None; resp_status := 200;
                          resp_statusText := ""; resp_headers := ∅ |})
                ∧ (rf_status (reply fr) ≠ 204%Z →
                   resp_status R = rf_status (reply fr)
                   ∧ resp_body R = rf_body (reply fr)).
Proof.
  intros Hfmt Hreply Hperm _.
  destruct (formatRequests_from_ids _ _ _ Hfmt) as [Hlen Hids].
  rewrite (parseResponse_echo frags reply rs next Hids Hreply Hperm).
  eexists. split; [done|]. cbn [responses]. split; [by rewrite length_fmap|].
  intros i fr Hfr. exists (decoded (reply fr)).
  split; [by rewrite list_lookup_fmap, Hfr|].
  unfold decoded. split.
  - intros H204. by rewrite decide_True.
  - intros Hne. by rewrite decide_False.
Qed.

Lemma every_accepted_status_decodes_witness :
  ∃ p, parseResponse
         {| gr_error := None;
            gr_responses := [{| rf_id := "1"; rf_status := 404;
                                rf_statusText := None; rf_headers := ∅;
                                rf_body := Some "{}" |}];
            gr_nextLink := None |} = Normal p
       ∧ length (responses p) = 1.
Proof.
  assert (constructible {| rf_id := "1"; rf_status := 404;
                           rf_statusText := None; rf_headers := ∅;
                           rf_body := Some "{}" |}) as Hok.
  { right. cbn. split; [lia|]. split; [right; lia|]. split; [reflexivity|].
    apply map_Forall_empty. }
  destruct (every_accepted_status_decodes [get_request 0 "/me"] _
              (λ fr, {| rf_id := frag_id fr; rf_status := 404;
                        rf_statusText := None; rf_headers := ∅;
                        rf_body := Some "{}" |})
              [{| rf_id := "1"; rf_status := 404; rf_statusText := None;
                  rf_headers := ∅; rf_body := Some "{}" |}] None
              eq_refl ltac:(intros fr; reflexivity) ltac:(reflexivity)
              (Forall_cons_2 _ _ _ Hok (Forall_nil_2 _)))
    as (p & Hp & Hlen & _).
  exists p. split; [exact Hp|exact Hlen].
Defined.

End CodecEdges.

(** ** Batch: more on what a flush does *)

Section FlushMore.

Import BatchModel Usage Scenarios.

Variable transport : nat → list IGraphBatchRequestFragment → NetOutcome.
Variable maxRequests : nat.

Local Abbreviation step := (BatchModel.step transport maxRequests).
Local Abbreviation run := (BatchModel.run transport maxRequests).
Local Abbreviation expected := (BatchModel.expected transport).
Local Abbreviation answers := (BatchModel.answers transport).
Local Abbreviation echoes := (BatchModel.echoes transport).

(** *** Reading more of a trace *)

(** What was queued to be delivered is delivered. *)
Lemma pending_in_expected (chunks : list (list RequestRecord)) (k : nat)
    (pending : list Event) (ev : Event) :
  ev ∈ pending → ev ∈ expected k chunks pending.
Proof.
  intros Hev. destruct chunks as [|c chunks]; cbn [BatchModel.expected].
  - by right.
  - destruct (formatRequests c); [|by right].
    apply elem_of_app. by left.
Qed.

(** A chain delivers to the record at each index the element at that
    index, as long as the indices stay within the chunk. *)
Lemma chain_events_lookup requestsChunk (arr : list Slot) (j i : nat)
    (r : RequestRecord) (v : Slot) :
  requestsChunk !! (j + i) = Some r → arr !! i = Some v → v ≠ SHole →
  Resolve (rr_promise r) v ∈ chain_events requestsChunk (present j arr).
Proof.
  revert j i. induction arr as [|v0 arr IH]; intros j i Hr Hv Hne; [done|].
  assert (is_Some (requestsChunk !! j)) as [r0 Hr0].
  { apply lookup_lt_is_Some. apply lookup_lt_Some in Hr. lia. }
  destruct i as [|i].
  - injection Hv as ->. rewrite Nat.add_0_r in Hr.
    destruct v; [|done|]; cbn [present chain_events]; rewrite Hr; by left.
  - simpl in Hv. rewrite <- Nat.add_succ_comm in Hr.
    pose proof (IH (S j) i Hr Hv Hne) as Hin.
    destruct v0; [|done|]; cbn [present chain_events]; rewrite Hr0; by right.
Qed.

(** *** Settling the promise of [execute] *)




(** X17: whatever the network does, the aggregate requests handed to the
    transport are the chunks of the queue, in order and from the first:
    the i-th is made from the i-th run of [maxRequests] requests.  None is
    sent twice, none is sent out of turn. *)
Theorem flush_sends_chunks_in_order (q : BatchQueue) :
  0 < maxRequests → registered q →
  ∃ n final,
    (∀ fuel, n ≤ fuel → flush transport maxRequests fuel q = final)
    ∧ step final = None
    ∧ length (transmitted (trace final))
      ≤ (length (requests q) + maxRequests - 1) / maxRequests
    ∧ ∀ i b, transmitted (trace final) !! i = Some b →
        i * maxRequests < length (requests q)
        ∧ formatRequests (take maxRequests (drop (i * maxRequests) (requests q)))
          = Normal b.
Proof.
  intros Hmax Hreg.
  destruct (flush_trace transport maxRequests q Hmax Hreg)
    as (n & final & Hrun & Hidle & Htrace).
  exists n, final. split; [done|]. split; [done|]. rewrite Htrace.
  destruct (expected_transmits_prefix transport (slices maxRequests (requests q)) 0 []
              eq_refl) as [m Hm].
  split.
  - rewrite (Forall2_length _ _ _ Hm), length_take, slices_length by done. lia.
  - intros i b Hb.
    destruct (Forall2_lookup_l _ _ _ _ _ Hm Hb) as (c & Hc & Hfmt).
    apply lookup_take_Some in Hc as [Hc _].
    destruct (slices_lookup_Some _ _ _ _ Hmax Hc) as [Hi ->]. done.
Qed.

(** X18: an operation of the first chunk is resolved with the element the
    decoder left at its index, be it a Response or the [null] of a place no
    fragment named, and whatever else the response holds. *)
Theorem flush_delivers_slot_to_operation (q : BatchQueue)
    (b : list IGraphBatchRequestFragment) (parsed : ParsedGraphResponse)
    (i : nat) (r : RequestRecord) (v : Slot) :
  0 < maxRequests → registered q →
  formatRequests (take maxRequests (requests q)) = Normal b →
  graphPost (transport 0 b) = Normal parsed →
  i < maxRequests → requests q !! i = Some r →
  responses parsed !! i = Some v → v ≠ SHole →
  ∃ n final,
    (∀ fuel, n ≤ fuel → flush transport maxRequests fuel q = final)
    ∧ step final = None
    ∧ (rr_promise r, v) ∈ resolutions (trace final).
Proof.
  intros Hmax Hreg Hfmt Hpost Hi Hr Hv Hne.
  destruct (flush_trace transport maxRequests q Hmax Hreg)
    as (n & final & Hrun & Hidle & Htrace).
  exists n, final. split; [done|]. split; [done|]. rewrite Htrace.
  rewrite slices_cons; [|done|by intros Hnil; rewrite Hnil in Hr].
  cbn [BatchModel.expected]. rewrite Hfmt, Hpost.
  apply elem_of_resolutions. rewrite app_nil_l. right.
  apply pending_in_expected.
  apply (chain_events_lookup _ _ 0 i); [|done..].
  by apply lookup_take_Some.
Qed.

(** *** Pairing operations and results *)

Section Replies.

(** The fragment the network sends back, at the [k]-th call, for a
    fragment it got. *)
Variable reply : nat → IGraphBatchRequestFragment → IGraphBatchResponseFragment.

(** Every call comes back, without top-level error, with the replies to
    the fragments sent, in some order; a reply carries the id of its
    fragment. *)
Hypothesis reply_id : ∀ k fr, rf_id (reply k fr) = frag_id fr.
Hypothesis replies : ∀ k b, ∃ rs next,
  transport k b = NetJson {| gr_error := None; gr_responses := rs;
                             gr_nextLink := next |}
  ∧ rs ≡ₚ reply k <$> b.




End Replies.

(** *** The end of a flush *)



(** *** A body that does not parse *)



End FlushMore.

(** ** Batch: a chunk size of zero *)

Section ZeroChunk.

Import BatchModel Usage Scenarios.

Variable transport : nat → list IGraphBatchRequestFragment → NetOutcome.

Hypothesis transport_answers : BatchModel.answers transport.

Variable workingCopy : list RequestRecord.

Hypothesis not_empty : workingCopy ≠ [].

Local Abbreviation spinning := (Usage.spinning workingCopy).

Lemma loop_zero (st : Loop) :
  BatchModel.loop 0 workingCopy st
  = {| microtasks := microtasks st;
       inflight := Some {| call_request := []; call_chunk := [];
                           call_rest := workingCopy |};
       trace := trace st;
       calls := calls st |}.
Proof.
  unfold BatchModel.loop. destruct workingCopy as [|r l] eqn:E; [done|].
  by rewrite take_0, drop_0.
Qed.

Lemma spinning_step (st : Loop) :
  spinning st →
  ∃ st', BatchModel.step transport 0 st = Some st' ∧ spinning st'.
Proof.
  intros ([[Hin Hthens]|(r & Hin & Hmicro)] & Ht & Hr & Hs).
  - unfold BatchModel.step. destruct (microtasks st) as [|j jobs] eqn:Ej.
    + rewrite Hin. cbn [call_request call_chunk call_rest].
      destruct (transport_answers (calls st) []) as [r' Hr']. rewrite Hr'.
      eexists. split; [done|].
      split; [right; by exists r'|].
      cbn [trace inflight microtasks].
      rewrite transmitted_app, resolved_app, settlements_app, Hr, Hs.
      split; [|done]. apply Forall_app. split; [done|]. by constructor.
    + inversion Hthens as [|? ? [elements ->] Hthens']; subst.
      eexists. split; [done|].
      destruct elements as [|[index response] rest]; cbn [BatchModel.run_job].
      * split; [|done]. by left.
      * unfold deliver. rewrite lookup_nil. unfold log. simpl.
        split; [by left|].
        cbn [trace inflight microtasks].
        rewrite transmitted_app, resolved_app, settlements_app, Hr, Hs.
        split; [|done]. by rewrite app_nil_r.
  - unfold BatchModel.step. rewrite Hmicro. eexists. split; [done|].
    cbn [BatchModel.run_job]. rewrite loop_zero.
    assert (trace (enqueue_then [] (present 0 (responses r))
                     {| microtasks := []; inflight := inflight st;
                        trace := trace st; calls := calls st |}) = trace st)
      as Htrace by (by destruct (present 0 (responses r))).
    split.
    + left. split; [done|]. cbn [microtasks].
      destruct (present 0 (responses r)) as [|el els]; [constructor|].
      cbn. constructor; [by eexists|constructor].
    + cbn [trace inflight microtasks]. by rewrite Htrace.
Qed.

Lemma spinning_run (fuel : nat) (st : Loop) :
  spinning st → spinning (BatchModel.run transport 0 fuel st).
Proof.
  revert st. induction fuel as [|fuel IH]; intros st Hst; [done|].
  destruct (spinning_step st Hst) as (st' & Hstep & Hst').
  cbn [BatchModel.run]. rewrite Hstep. by apply IH.
Qed.

(** X22: with a chunk size of zero, a network that answers, and at least
    one operation queued, the flush never comes to rest: however long it
    runs there is a next turn, every aggregate request sent is empty, no
    operation is resolved and the promise of [execute] is not settled. *)
Theorem flush_with_chunk_size_zero_never_rests (q : BatchQueue) (fuel : nat) :
  registered q → requests q = workingCopy →
  let st := flush transport 0 fuel q in
  BatchModel.step transport 0 st ≠ None
  ∧ Forall (λ b, b = []) (transmitted (trace st))
  ∧ resolved (trace st) = []
  ∧ settlements (trace st) = [].
Proof.
  intros Hreg Hq. cbv zeta.
  assert (spinning (flush transport 0 fuel q)) as Hspin.
  { unfold flush. apply spinning_run. unfold execute. rewrite Hreg, Hq.
    assert (match workingCopy with
            | [] => log (idle) [FlushResolved]
            | _ :: _ => BatchModel.loop 0 workingCopy idle
            end = BatchModel.loop 0 workingCopy idle) as ->
      by (by destruct workingCopy).
    rewrite loop_zero. split; [|by repeat constructor].
    left. split; [done|constructor]. }
  destruct (spinning_step _ Hspin) as (st' & Hstep & _).
  split; [by rewrite Hstep|]. apply Hspin.
Qed.

End ZeroChunk.

(** ** Batch: the same on concrete queues *)

Section FlushMoreScenarios.

Import BatchModel Usage Scenarios.


Lemma flush_sends_chunks_in_order_witness :
  ∃ n final,
    (∀ fuel, n ≤ fuel → flush raising_transport 2 fuel (queue_of 5) = final)
    ∧ length (transmitted (trace final)) ≤ 3.
Proof.
  destruct (flush_sends_chunks_in_order raising_transport 2 (queue_of 5)
              ltac:(lia) (queue_of_registered 5))
    as (n & final & Hrun & _ & Hlen & _).
  exists n, final. split; [exact Hrun|exact Hlen].
Defined.

(** A network that answers the first fragment twice. *)
Lemma flush_delivers_slot_to_operation_witness :
  let stutter (k : nat) (b : list IGraphBatchRequestFragment) :=
    NetJson {| gr_error := None;
               gr_responses := (echo_reply <$> take 1 b) ++ (echo_reply <$> take 1 b);
               gr_nextLink := None |} in
  ∃ n final,
    (∀ fuel, n ≤ fuel → flush stutter 2 fuel (queue_of 2) = final)
    ∧ (1, SNull) ∈ resolutions (trace final).
Proof.
  cbv zeta.
  destruct (flush_delivers_slot_to_operation
              (λ k b, NetJson {| gr_error := None;
                                 gr_responses := (echo_reply <$> take 1 b)
                                                 ++ (echo_reply <$> take 1 b);
                                 gr_nextLink := None |})
              2 (queue_of 2) _ _ 1
              {| rr_queryable := 1; rr_url := "https://graph.microsoft.com/v1.0/me";
                 rr_init := {| init_method := "GET"; init_headers := ∅;
                               init_body := None |};
                 rr_promise := 1 |} SNull
              ltac:(lia) (queue_of_registered 2) eq_refl eq_refl ltac:(lia)
              eq_refl eq_refl ltac:(discriminate))
    as (n & final & Hrun & _ & Hin).
  exists n, final. split; [exact Hrun|exact Hin].
Defined.




Lemma flush_with_chunk_size_zero_never_rests_witness :
  BatchModel.step echo_transport 0 (flush echo_transport 0 1000 (queue_of 1)) ≠ None.
Proof.
  apply (flush_with_chunk_size_zero_never_rests echo_transport
           (echoes_answers _ echo_transport_echoes)
           (requests (queue_of 1)) ltac:(discriminate)
           (queue_of 1) 1000 (queue_of_registered 1) eq_refl).
Defined.

End FlushMoreScenarios.
